(** * Quarry: research workbench, frontend hooks, Typst components and orchestrator core

    The development follows the repository layout:
    - [Types]        frontend/src/types/index.ts (wire messages);
    - [UseWebSocket] frontend/src/hooks/useWebSocket.ts (message handler);
    - [UseTypst]     frontend/src/hooks/useTypst.ts (in-browser compilation);
    - [ChatSidebar]  frontend/src/components/ChatSidebar.tsx (backend rows);
    - [Typst]        typst/components/conflict-box.typ;
    - [Core]         the orchestrator core (dispatcher, synthesizer, claim
                     store, projector, session controller). *)

From Stdlib Require Import QArith.
From stdpp Require Import gmap strings list fin_maps.

Open Scope string_scope.
Open Scope nat_scope.
Open Scope list_scope.
Set Warnings "-register-all".

(** ** Values travelling over the socket *)

(** What [JSON.parse] hands to the handler.  Numbers are kept as integers:
    no code below inspects a numeric payload. *)
Inductive json : Type :=
| JNull
| JBool (b : bool)
| JNum (n : Z)
| JStr (s : string)
| JArr (items : list json)
| JObj (fields : list (string * json)).

(** A JavaScript value read from a property: [None] is [undefined]. *)
Definition jsval : Type := option json.

Fixpoint assoc {A} (k : string) (l : list (string * A)) : option A :=
  match l with
  | [] => None
  | (k', v) :: rest => if String.eqb k k' then Some v else assoc k rest
  end.

(** [msg.key] on a parsed value that is not [null]: own properties of an
    object; the keys read below exist on no array, string, number or
    boolean, so those give [undefined]. *)
Definition prop (v : json) (key : string) : jsval :=
  match v with
  | JObj fields => assoc key fields
  | _ => None
  end.

(** The revision of the file that has the per-backend entries
    ([BackendInfo], [backend_update]); the other revision has the status,
    report, error and ack variants only, with the same fields. *)
Module Types.

(** [BackendInfo.status]: "searching" | "done" | "failed". *)
Inductive BackendStatus := searching | done | failed.

Record BackendInfo := { name : string; status : BackendStatus }.

(** [backend_update.status]: "done" | "failed". *)
Inductive UpdateStatus := update_done | update_failed.

(** The [WSMessage] union; optional fields are options. *)
Inductive WSMessage :=
| Status (stage : string) (backends : option (list BackendInfo)) (detail : option string)
| BackendUpdate (name : string) (status : UpdateStatus) (claims : option Z) (error : option string)
| Report (typst_source : string)
| Error (detail : string)
| Ack (data : string).

(** The discriminating [type] field of each variant. *)
Definition type_of (m : WSMessage) : string :=
  match m with
  | Status _ _ _ => "status"
  | BackendUpdate _ _ _ _ => "backend_update"
  | Report _ => "report"
  | Error _ => "error"
  | Ack _ => "ack"
  end.

Definition status_name (s : BackendStatus) : string :=
  match s with
  | searching => "searching"
  | done => "done"
  | failed => "failed"
  end.

Definition update_status_name (s : UpdateStatus) : string :=
  match s with
  | update_done => "done"
  | update_failed => "failed"
  end.

Definition optional_field {A} (key : string) (enc : A → json) (o : option A)
  : list (string * json) :=
  match o with
  | Some a => [(key, enc a)]
  | None => []
  end.

Definition backend_info_json (b : BackendInfo) : json :=
  JObj [("name", JStr (name b)); ("status", JStr (status_name (status b)))].

(** The object a message of the union is on the wire. *)
Definition to_json (m : WSMessage) : json :=
  match m with
  | Status stage backends detail =>
      JObj ([("type", JStr "status"); ("stage", JStr stage)]
            ++ optional_field "backends" (λ bs, JArr (backend_info_json <$> bs)) backends
            ++ optional_field "detail" JStr detail)
  | BackendUpdate n s claims error =>
      JObj ([("type", JStr "backend_update"); ("name", JStr n);
             ("status", JStr (update_status_name s))]
            ++ optional_field "claims" JNum claims
            ++ optional_field "error" JStr error)
  | Report src => JObj [("type", JStr "report"); ("typst_source", JStr src)]
  | Error detail => JObj [("type", JStr "error"); ("detail", JStr detail)]
  | Ack data => JObj [("type", JStr "ack"); ("data", JStr data)]
  end.

End Types.

Module UseWebSocket.

(** The hook's React state. The setters store whatever the message
    carries, so the fields hold JavaScript values. *)
Record State := {
  stage : jsval;
  typstSource : jsval;
  error : jsval;
  connected : bool;
}.

Definition initial : State :=
  {| stage := Some (JStr ""); typstSource := Some (JStr "");
     error := Some (JStr ""); connected := false |}.

Definition setStage (v : jsval) (st : State) : State :=
  {| stage := v; typstSource := typstSource st; error := error st;
     connected := connected st |}.
Definition setTypstSource (v : jsval) (st : State) : State :=
  {| stage := stage st; typstSource := v; error := error st;
     connected := connected st |}.
Definition setError (v : jsval) (st : State) : State :=
  {| stage := stage st; typstSource := typstSource st; error := v;
     connected := connected st |}.
Definition setConnected (b : bool) (st : State) : State :=
  {| stage := stage st; typstSource := typstSource st; error := error st;
     connected := b |}.

(** [switch (msg.type)] compares with [===]: only a string value selects
    a case. *)
Definition type_tag (msg : json) : option string :=
  match prop msg "type" with
  | Some (JStr t) => Some t
  | _ => None
  end.

(** [ws.onmessage], on the parsed [event.data].  Reading [msg.type] of
    [null] throws, which abandons the handler with the state as it was. *)
Definition onmessage (msg : json) (st : State) : State :=
  match msg with
  | JNull => st
  | _ =>
      match type_tag msg with
      | Some t =>
          if String.eqb t "status" then setStage (prop msg "stage") st
          else if String.eqb t "report" then setTypstSource (prop msg "typst_source") st
          else if String.eqb t "error" then setError (prop msg "detail") st
          else st
      | None => st
      end
  end.

Definition onopen (st : State) : State := setConnected true st.
Definition onclose (st : State) : State := setConnected false st.
Definition onerror (st : State) : State :=
  setError (Some (JStr "WebSocket connection failed")) st.

End UseWebSocket.

Module UseTypst.

(** What a rejected promise carries: an [Error] with its message, or any
    other thrown value. *)
Inductive thrown := ErrorObject (message : string) | OtherValue.

(** How an awaited promise settles. *)
Inductive settled (A : Type) := Fulfilled (a : A) | Rejected (e : thrown).
Arguments Fulfilled {A} a.
Arguments Rejected {A} e.

(** The hook's state: three [useState] cells and the [lastSource] ref.
    [svg_calls] is bookkeeping: the sources handed to [$typst.svg] so
    far, oldest first. *)
Record State := {
  svg : string;
  compiling : bool;
  error : string;
  lastSource : string;
  svg_calls : list string;
}.

Definition initial : State :=
  {| svg := ""; compiling := false; error := ""; lastSource := "";
     svg_calls := [] |}.

Definition setSvg (v : string) (st : State) : State :=
  {| svg := v; compiling := compiling st; error := error st;
     lastSource := lastSource st; svg_calls := svg_calls st |}.
Definition setCompiling (b : bool) (st : State) : State :=
  {| svg := svg st; compiling := b; error := error st;
     lastSource := lastSource st; svg_calls := svg_calls st |}.
Definition setError (v : string) (st : State) : State :=
  {| svg := svg st; compiling := compiling st; error := v;
     lastSource := lastSource st; svg_calls := svg_calls st |}.
Definition setLastSource (v : string) (st : State) : State :=
  {| svg := svg st; compiling := compiling st; error := error st;
     lastSource := v; svg_calls := svg_calls st |}.
Definition record_svg_call (source : string) (st : State) : State :=
  {| svg := svg st; compiling := compiling st; error := error st;
     lastSource := lastSource st; svg_calls := svg_calls st ++ [source] |}.

(** [err instanceof Error ? err.message : "Typst compilation failed"] *)
Definition failure_message (e : thrown) : string :=
  match e with
  | ErrorObject message => message
  | OtherValue => "Typst compilation failed"
  end.

Section Compile.

(** [getTypst()] returns one memoised promise (in both revisions of the
    hook), so every call awaits the same settlement. *)
Variable getTypst : settled unit.
(** [$typst.svg({ mainContent: source })] of the typst.ts library. *)
Variable typst_svg : string → settled string.

(** The part of [compile] that runs before the first [await]: the guard,
    then the ref and the two setters.  [None] is the early [return]. *)
Definition compile_begin (source : string) (st : State) : option State :=
  if String.eqb source "" || String.eqb source (lastSource st) then None
  else Some (setError "" (setCompiling true (setLastSource source st))).

(** The [try]/[catch]/[finally] once the awaited promises settle, from
    whatever state the hook is in by then. *)
Definition compile_settle (source : string) (st : State) : State :=
  match getTypst with
  | Rejected e => setCompiling false (setError (failure_message e) st)
  | Fulfilled _ =>
      let st := record_svg_call source st in
      match typst_svg source with
      | Fulfilled result => setCompiling false (setSvg result st)
      | Rejected e => setCompiling false (setError (failure_message e) st)
      end
  end.

(** One call of [compile] run to completion. *)
Definition compile (source : string) (st : State) : State :=
  match compile_begin source st with
  | None => st
  | Some st' => compile_settle source st'
  end.

(** The compilation of [source] throws [e]: the loader's promise is
    rejected, or the compiler's is. *)
Definition compilation_throws (source : string) (e : thrown) : Prop :=
  getTypst = Rejected e
  ∨ (∃ u, getTypst = Fulfilled u) ∧ typst_svg source = Rejected e.

(** Calls of [compile] one after the other, each run to completion. *)
Definition compile_all (sources : list string) (st : State) : State :=
  foldl (λ st source, compile source st) st sources.

End Compile.

(** A compiler for examples: it rejects the source "#bad(" and wraps
    every other source in an svg element. *)
Definition sample_svg (source : string) : settled string :=
  if String.eqb source "#bad("
  then Rejected (ErrorObject "unclosed delimiter")
  else Fulfilled ("<svg>" +:+ source +:+ "</svg>").

End UseTypst.

Module ChatSidebar.
Import Types.



(** [cond && text] as a React child: the text, or nothing. *)
Definition when (cond : bool) (text : string) : string :=
  if cond then text else "".


End ChatSidebar.

Module Typst.

(** Typst content, as far as conflict-box.typ builds it.  Element
    arguments are kept as written in the source, colours by their hex
    code. *)
Inductive content : Type :=
| Text (s : string)
| Strong (body : list content)
| Styled (args : list (string * string)) (body : list content)
| V (amount : string)
| Item (body : list content)
| Block (args : list (string * string)) (body : list content).

(** The strings a piece of content shows, left to right. *)
Fixpoint texts (c : content) : list string :=
  match c with
  | Text s => [s]
  | V _ => []
  | Strong body | Styled _ body | Item body | Block _ body =>
      (fix go (l : list content) : list string :=
         match l with
         | [] => []
         | c :: l => texts c ++ go l
         end) body
  end.

(** A dictionary with string values, as the positions are written in
    SPEC.md: [(source: "Gemini", claim: "$2.1B", citation: "Reuters")]. *)
Abbreviation dictionary := (gmap string string).

(** [d.key]: an error ([None]) when the dictionary has no such key. *)
Definition field (d : dictionary) (key : string) : option string := d !! key.

(** [d.keys().contains(key)] *)
Definition keys_contains (d : dictionary) (key : string) : bool :=
  bool_decide (is_Some (d !! key)).

Definition box_args : list (string * string) :=
  [("width", "100%"); ("inset", "12pt"); ("radius", "4pt");
   ("fill", "#FFF3CD"); ("stroke", "1pt + #FFCA2C")].
Definition title_args : list (string * string) :=
  [("weight", "bold"); ("size", "10pt"); ("fill", "#664D03")].
Definition citation_args : list (string * string) :=
  [("size", "9pt"); ("fill", "gray")].
Definition resolution_args : list (string * string) :=
  [("style", "italic")].

(** The body of [#for pos in positions [ ... ]]: one list item. *)
Definition position_item (pos : dictionary) : option content :=
  source ← field pos "source";
  claim ← field pos "claim";
  cited ← (if keys_contains pos "citation"
           then c ← field pos "citation";
                Some [Styled citation_args [Text "("; Text c; Text ")"]]
           else Some []);
  Some (Item ([Strong [Text source]; Text ": "; Text claim] ++ cited)).

(** [#if resolution != none [ ... ]] *)
Definition resolution_line (resolution : option string) : list content :=
  match resolution with
  | Some r => [V "0.5em"; Styled resolution_args [Text "Resolution: "; Text r]]
  | None => []
  end.

(** [#let conflict-box(topic: "", positions: (), resolution: none)] *)
Definition conflict_box (topic : string) (positions : list dictionary)
    (resolution : option string) : option content :=
  items ← mapM position_item positions;
  Some (Block box_args
          ([Styled title_args [Text "Disputed: "; Text topic]; V "0.5em"]
           ++ items ++ resolution_line resolution)).

(** A call that leaves every argument at its default. *)
Definition conflict_box_default : option content := conflict_box "" [] None.

(** The item [position_item] builds from a position's three fields. *)
Definition member_item (source claim : string) (citation : option string) : content :=
  Item ([Strong [Text source]; Text ": "; Text claim]
        ++ match citation with
           | Some c => [Styled citation_args [Text "("; Text c; Text ")"]]
           | None => []
           end).

(** A position the component can render: it has the keys that are read
    without a guard. *)
Definition renderable (pos : dictionary) : Prop :=
  is_Some (pos !! "source") ∧ is_Some (pos !! "claim").

(** The two positions of SPEC.md's example; the second one here without
    its citation. *)
Definition gemini_position : dictionary :=
  {[ "source" := "Gemini"; "claim" := "$2.1B"; "citation" := "Reuters, Jan 2026" ]}.
Definition grok_position : dictionary :=
  {[ "source" := "Grok"; "claim" := "$1.8B" ]}.

End Typst.

(** ** Shapes the specification gives to outbound events *)

(** The document event as the specification words it:
    [{type: document, document: <projected structured document>}]. *)
Definition document_event (doc : json) : json :=
  JObj [("type", JStr "document"); ("document", doc)].



(** ** The orchestrator core

    The backend (orchestrator/dispatcher.py, synthesizer.py,
    typst_generator.py and the models) is missing from the repository's
    files; the definitions of this module follow the specification of the
    core, section by section. *)
Module Core.

(** *** Data model *)

Inductive SourceKind := pdf | url | document | plain_text.
Inductive SourceOrigin := user_uploaded | backend_discovered.

(** Modelled from the spec: the Source record (models/source.py is
    missing). *)
Record Source := {
  source_id : nat;
  kind : SourceKind;
  source_text : string;
  metadata : gmap string string;
  origin : SourceOrigin;
}.

Inductive ResultStatus := ok | failed | timed_out.

#[global] Instance ResultStatus_eq_dec : EqDecision ResultStatus.
Proof. solve_decision. Defined.

(** Modelled from the spec: one raw claim draft of a backend result
    (the adapters' result type is missing). *)
Record ClaimDraft := {
  draft_text : string;
  draft_url : option string;
  draft_source_id : option nat;
  draft_confidence : option Q;
}.

(** Modelled from the spec: BackendResult, the output of one adapter
    invocation (backends/base.py is missing). *)
Record BackendResult := {
  backend_name : string;
  status : ResultStatus;
  raw_claims : list ClaimDraft;
  error_detail : option string;
}.

(** Modelled from the spec: Citation (models/citation.py is missing). *)
Record Citation := {
  claim_id : nat;
  llm_source : string;
  underlying_url : option string;
  underlying_source_id : option nat;
}.

(** Modelled from the spec: Claim (the synthesizer's claim type is
    missing). *)
Record Claim := {
  id : nat;
  text : string;
  topic_key : string;
  reporting_backends : gset string;
  citations : list Citation;
  confidence : Q;
  superseded_by : option nat;
}.

(** Modelled from the spec: Conflict (models/report.py is missing). *)
Record Conflict := {
  conflict_id : nat;
  conflict_topic_key : string;
  member_claim_ids : gset nat;
  resolution : option string;
}.

(** Modelled from the spec: the Claim Store state of one session
    (missing with the synthesizer).  Claims and conflicts are kept in
    creation order; the entry with id [i] sits at index [i]. *)
Record ClaimStore := {
  claims : list Claim;
  conflicts : list Conflict;
  sources : list Source;
}.

Definition empty_store : ClaimStore :=
  {| claims := []; conflicts := []; sources := [] |}.

(** Modelled from the spec: the three verdicts of the pluggable
    similarity predicate (missing with the synthesizer). *)
Inductive Similarity := duplicate | conflicting | unrelated.

#[global] Instance Similarity_eq_dec : EqDecision Similarity.
Proof. solve_decision. Defined.

(** Modelled from the spec: the change event the Synthesizer emits
    (missing with the synthesizer). *)
Record Change := {
  added_claim_ids : list nat;
  updated_claim_ids : list nat;
  touched_conflict_ids : list nat;
}.

Definition no_change : Change :=
  {| added_claim_ids := []; updated_claim_ids := []; touched_conflict_ids := [] |}.

Definition join_changes (a b : Change) : Change :=
  {| added_claim_ids := added_claim_ids a ++ added_claim_ids b;
     updated_claim_ids := updated_claim_ids a ++ updated_claim_ids b;
     touched_conflict_ids := touched_conflict_ids a ++ touched_conflict_ids b |}.

(** *** Claim Store and Synthesizer *)

Section Strategies.

(** The pluggable strategies the core delegates to: the topic key of a
    claim text, the similarity judgment on an earlier and an incoming text
    under one topic key, which drafts parse, and the confidence of a draft
    that reports none. *)
Variable topic_key_of : string → string.
Variable classify : string → string → Similarity.
Variable parsable : ClaimDraft → bool.
Variable default_confidence : Q.

(** Claim [c] sits under topic key [k] and the predicate gives verdict
    [v] on its text against the incoming text [t]. *)
Definition judged (v : Similarity) (k t : string) (c : Claim) : Prop :=
  topic_key c = k ∧ classify (text c) t = v.

#[global] Instance judged_dec v k t c : Decision (judged v k t c).
Proof. unfold judged. apply _. Defined.

Definition cite (cid : nat) (backend : string) (d : ClaimDraft) : Citation :=
  {| claim_id := cid; llm_source := backend;
     underlying_url := draft_url d;
     underlying_source_id := draft_source_id d |}.

(** Modelled from the spec: the dedup merge (synthesizer.py is
    missing): the earlier Claim's reporting_backends gains the new
    backend and its Citations gain one more entry. *)
Definition merge_into (backend : string) (d : ClaimDraft) (c : Claim) : Claim :=
  {| id := id c; text := text c; topic_key := topic_key c;
     reporting_backends := reporting_backends c ∪ {[backend]};
     citations := citations c ++ [cite (id c) backend d];
     confidence := confidence c;
     superseded_by := superseded_by c |}.

Definition new_claim (i : nat) (backend : string) (d : ClaimDraft) : Claim :=
  {| id := i; text := draft_text d;
     topic_key := topic_key_of (draft_text d);
     reporting_backends := {[backend]};
     citations := [cite i backend d];
     confidence := default default_confidence (draft_confidence d);
     superseded_by := None |}.

Definition extend_conflict (members : gset nat) (x : Conflict) : Conflict :=
  {| conflict_id := conflict_id x;
     conflict_topic_key := conflict_topic_key x;
     member_claim_ids := member_claim_ids x ∪ members;
     resolution := resolution x |}.

(** Modelled from the spec: a Conflict is created or extended
    (synthesizer.py is missing).  The result is the conflict list and
    the id of the conflict that was touched. *)
Definition link_conflict (k : string) (members : gset nat)
    (cs : list Conflict) : list Conflict * nat :=
  match list_find (λ x, conflict_topic_key x = k) cs with
  | Some (j, x) => (<[j := extend_conflict members x]> cs, j)
  | None =>
      (cs ++ [{| conflict_id := length cs; conflict_topic_key := k;
                 member_claim_ids := members; resolution := None |}],
       length cs)
  end.

(** Modelled from the spec: add-or-merge-claim of the Claim Store
    (missing with synthesizer.py).  An incoming draft is merged into
    the earliest Claim under its topic key that is judged a duplicate;
    otherwise it becomes a new Claim, linked by a Conflict to the Claims
    under its topic key that are judged conflicting. *)
Definition add_or_merge_claim (backend : string) (d : ClaimDraft)
    (s : ClaimStore) : ClaimStore * Change :=
  let k := topic_key_of (draft_text d) in
  match list_find (judged duplicate k (draft_text d)) (claims s) with
  | Some (i, c) =>
      ({| claims := <[i := merge_into backend d c]> (claims s);
          conflicts := conflicts s;
          sources := sources s |},
       {| added_claim_ids := []; updated_claim_ids := [i];
          touched_conflict_ids := [] |})
  | None =>
      let i := length (claims s) in
      let opponents :=
        id <$> filter (judged conflicting k (draft_text d)) (claims s) in
      match opponents with
      | [] =>
          ({| claims := claims s ++ [new_claim i backend d];
              conflicts := conflicts s;
              sources := sources s |},
           {| added_claim_ids := [i]; updated_claim_ids := [];
              touched_conflict_ids := [] |})
      | _ :: _ =>
          let '(cs, j) :=
            link_conflict k ({[i]} ∪ list_to_set opponents) (conflicts s) in
          ({| claims := claims s ++ [new_claim i backend d];
              conflicts := cs;
              sources := sources s |},
           {| added_claim_ids := [i]; updated_claim_ids := [];
              touched_conflict_ids := [j] |})
      end
  end.

(** Modelled from the spec: add-source (the source store is missing);
    sources are append-only. *)
Definition add_source (src : Source) (s : ClaimStore) : ClaimStore :=
  {| claims := claims s; conflicts := conflicts s;
     sources := sources s ++ [src] |}.

Definition set_resolution (r : string) (x : Conflict) : Conflict :=
  {| conflict_id := conflict_id x;
     conflict_topic_key := conflict_topic_key x;
     member_claim_ids := member_claim_ids x;
     resolution := Some r |}.

(** Modelled from the spec: resolve-conflict (missing with the claim
    store): sets the resolution of conflict [j]. *)
Definition resolve_conflict (j : nat) (r : string) (s : ClaimStore) : ClaimStore :=
  {| claims := claims s;
     conflicts := alter (set_resolution r) j (conflicts s);
     sources := sources s |}.

(** Modelled from the spec: the Synthesizer's handling of one
    BackendResult (synthesizer.py is missing): an ok result has each
    parsable draft added or merged, in order; a failed or timed-out
    result records no claims. *)
Definition synthesize (r : BackendResult) (s : ClaimStore) : ClaimStore * Change :=
  match status r with
  | ok =>
      foldl (λ acc d,
               let '(s', ch) := add_or_merge_claim (backend_name r) d acc.1 in
               (s', join_changes acc.2 ch))
            (s, no_change)
            (filter (λ d, parsable d = true) (raw_claims r))
  | failed | timed_out => (s, no_change)
  end.

(** *** Dispatcher *)

(** Modelled from the spec: how one adapter task completes (the adapter
    interface, backends/base.py, is missing): success, application-level
    failure, or its deadline passing. *)
Inductive AdapterOutcome :=
| Returned (drafts : list ClaimDraft)
| Errored (why : string)
| DeadlineExceeded.

Definition timeout_detail : string := "timed out".

(** Modelled from the spec: the BackendResult the Dispatcher emits when
    an adapter task completes (dispatcher.py is missing). *)
Definition emit_result (name : string) (o : AdapterOutcome) : BackendResult :=
  match o with
  | Returned drafts =>
      {| backend_name := name; status := ok; raw_claims := drafts;
         error_detail := None |}
  | Errored why =>
      {| backend_name := name; status := failed; raw_claims := [];
         error_detail := Some why |}
  | DeadlineExceeded =>
      {| backend_name := name; status := timed_out; raw_claims := [];
         error_detail := Some timeout_detail |}
  end.

(** Modelled from the spec: the backend_update event for a processed
    result, [{type: backend_update, name, status, claim_count?,
    error?}] (its emitter is missing), as a message of the frontend's
    [WSMessage] union. *)
Definition backend_update (r : BackendResult) : Types.WSMessage :=
  match status r with
  | ok =>
      Types.BackendUpdate (backend_name r) Types.update_done
        (Some (Z.of_nat (length (raw_claims r)))) None
  | failed | timed_out =>
      Types.BackendUpdate (backend_name r) Types.update_failed
        None (error_detail r)
  end.

(** *** Document Projector *)

Record Snapshot := {
  snap_claims : list Claim;
  snap_conflicts : list Conflict;
}.

(** Modelled from the spec: get-snapshot of the Claim Store (missing
    with the claim store). *)
Definition get_snapshot (s : ClaimStore) : Snapshot :=
  {| snap_claims := claims s; snap_conflicts := conflicts s |}.

(** One line of a conflict block: backend, claim text, citation. *)
Record Position := {
  pos_source : string;
  pos_claim : string;
  pos_citation : option string;
}.

Record ConflictBlock := {
  block_topic : string;
  block_positions : list Position;
  block_resolution : option string;
}.

Record DocSection := {
  section_topic : string;
  section_claims : list Claim;
  section_conflicts : list ConflictBlock;
}.

Record Document := {
  title : string;
  doc_sections : list DocSection;
}.

Definition positions_of (c : Claim) : list Position :=
  (λ ct, {| pos_source := llm_source ct; pos_claim := text c;
            pos_citation := underlying_url ct |}) <$> citations c.

Definition block_of (cl : list Claim) (x : Conflict) : ConflictBlock :=
  {| block_topic := conflict_topic_key x;
     block_positions :=
       filter (λ c, id c ∈ member_claim_ids x) cl ≫= positions_of;
     block_resolution := resolution x |}.

Definition section_for (snap : Snapshot) (k : string) : DocSection :=
  {| section_topic := k;
     section_claims := filter (λ c, topic_key c = k) (snap_claims snap);
     section_conflicts :=
       block_of (snap_claims snap)
         <$> filter (λ x, conflict_topic_key x = k) (snap_conflicts snap) |}.

(** Modelled from the spec: the Document Projector (typst_generator.py
    is missing): one section per topic key, in order of first
    appearance, with the section's Claims and its Conflicts as flagged
    blocks. *)
Definition project (snap : Snapshot) (query : string) : Document :=
  {| title := query;
     doc_sections :=
       section_for snap <$> remove_dups (topic_key <$> snap_claims snap) |}.

(** *** Rendering boundary *)

(** A position as the dictionary conflict-box.typ reads: [source], [claim]
    and, when there is one, [citation]. *)
Definition position_dictionary (p : Position) : gmap string string :=
  let d := <["source" := pos_source p]> (<["claim" := pos_claim p]> ∅) in
  match pos_citation p with
  | Some c => <["citation" := c]> d
  | None => d
  end.

(** Modelled from the spec: the hand-over of a projected conflict block to
    the conflict box (typst_generator.py is missing). *)
Definition render_block (b : ConflictBlock) : option Typst.content :=
  Typst.conflict_box (block_topic b)
    (position_dictionary <$> block_positions b) (block_resolution b).

(** *** Session Controller *)

(** Modelled from the spec: the states of the Session Controller (the
    controller is missing). *)
Inductive Stage :=
| st_idle | st_dispatching | st_synthesizing | st_generating
| st_done | st_failed.

(** Modelled from the spec: the Session aggregate with what its
    controller keeps (the controller is missing): the detail of a failed
    round, naming each failed backend and why, and the last
    projection. *)
Record Session := {
  session_id : nat;
  original_query : string;
  store : ClaimStore;
  stage : Stage;
  failure_detail : list (string * string);
  projection : option Document;
}.

Definition new_session (sid : nat) (query : string) : Session :=
  {| session_id := sid; original_query := query; store := empty_store;
     stage := st_idle; failure_detail := []; projection := None |}.

Definition with_stage (g : Stage) (s : Session) : Session :=
  {| session_id := session_id s; original_query := original_query s;
     store := store s; stage := g;
     failure_detail := failure_detail s; projection := projection s |}.
Definition with_store (c : ClaimStore) (s : Session) : Session :=
  {| session_id := session_id s; original_query := original_query s;
     store := c; stage := stage s;
     failure_detail := failure_detail s; projection := projection s |}.
Definition with_failure (d : list (string * string)) (s : Session) : Session :=
  {| session_id := session_id s; original_query := original_query s;
     store := store s; stage := stage s;
     failure_detail := d; projection := projection s |}.
Definition with_projection (d : Document) (s : Session) : Session :=
  {| session_id := session_id s; original_query := original_query s;
     store := store s; stage := stage s;
     failure_detail := failure_detail s; projection := Some d |}.

(** Modelled from the spec: submit_query (the controller is missing):
    idle→dispatching on a query, done→dispatching on a follow-up; the
    attached sources join the store.  No other stage accepts a query. *)
Definition submit_query (srcs : list Source) (s : Session) : option Session :=
  match stage s with
  | st_idle | st_done =>
      Some (with_stage st_dispatching
              (with_store (foldl (flip add_source) (store s) srcs) s))
  | _ => None
  end.

(** Modelled from the spec: one BackendResult reaches the Synthesizer
    (the controller is missing); results are processed as they arrive. *)
Definition absorb (s : Session) (r : BackendResult) : Session :=
  with_stage st_synthesizing (with_store (synthesize r (store s)).1 s).

Definition all_failed (rs : list BackendResult) : bool :=
  forallb (λ r, negb (bool_decide (status r = ok))) rs.

(** Which backends failed and why. *)
Definition failed_backends (rs : list BackendResult) : list (string * string) :=
  omap (λ r, match status r with
             | ok => None
             | failed | timed_out =>
                 Some (backend_name r, default "" (error_detail r))
             end) rs.

(** Modelled from the spec: the round's results are exhausted (the
    controller is missing): synthesizing→generating, or failed when every
    adapter failed or timed out. *)
Definition close_round (rs : list BackendResult) (s : Session) : Session :=
  if all_failed rs
  then with_failure (failed_backends rs) (with_stage st_failed s)
  else with_stage st_generating s.

(** Modelled from the spec: generating→done by one Projector pass (the
    controller is missing). *)
Definition project_pass (s : Session) : Session :=
  match stage s with
  | st_generating =>
      with_stage st_done
        (with_projection
           (project (get_snapshot (store s)) (original_query s)) s)
  | _ => s
  end.

(** Modelled from the spec: one round of the Session Controller (the
    controller and dispatcher.py are missing).  [arrivals] lists the
    adapters of the round with how each completed, in arrival order. *)
Definition run_round (srcs : list Source)
    (arrivals : list (string * AdapterOutcome)) (s : Session) : option Session :=
  s ← submit_query srcs s;
  let results := (λ a, emit_result a.1 a.2) <$> arrivals in
  Some (project_pass (close_round results (foldl absorb s results))).

(** *** Invariants of the data model *)

(** Every Claim sits at the index that is its id. *)
Definition claims_indexed (cl : list Claim) : Prop :=
  ∀ i c, cl !! i = Some c → id c = i.

(** A Claim has a reporting backend, and its citations, of which there is
    one at least, refer back to it and name backends that report it. *)
Definition claim_sound (c : Claim) : Prop :=
  reporting_backends c ≠ ∅
  ∧ citations c ≠ []
  ∧ Forall (λ ct, claim_id ct = id c ∧ llm_source ct ∈ reporting_backends c)
      (citations c).

(** A Conflict refers to at least two distinct Claims, all under the
    conflict's topic key. *)
Definition conflict_sound (cl : list Claim) (x : Conflict) : Prop :=
  2 ≤ size (member_claim_ids x)
  ∧ ∀ i, i ∈ member_claim_ids x →
         ∃ c, cl !! i = Some c ∧ id c = i ∧ topic_key c = conflict_topic_key x.

(** The stores the operations of the Claim Store lead to. *)
Inductive reachable : ClaimStore → Prop :=
| reach_empty : reachable empty_store
| reach_add_or_merge s backend d :
    reachable s → reachable (add_or_merge_claim backend d s).1
| reach_add_source s src :
    reachable s → reachable (add_source src s)
| reach_resolve s j r :
    reachable s → reachable (resolve_conflict j r s).

End Strategies.

(** Strategies for examples: one topic key for every text; equal texts,
    and the two wordings of the 2.1B figure, are duplicates; any other two
    texts conflict. *)
Definition sample_topic_key (t : string) : string := "acme-2025-revenue".

Definition sample_classify (earlier incoming : string) : Similarity :=
  if String.eqb earlier incoming then duplicate
  else if String.eqb earlier "Revenue is $2.1B"
          && String.eqb incoming "Revenue came to $2.1B"
       then duplicate
       else conflicting.

Definition sample_draft (t : string) : ClaimDraft :=
  {| draft_text := t; draft_url := None; draft_source_id := None;
     draft_confidence := None |}.

End Core.

(** ** More of the frontend *)

(** The socket's whole life in the hook: the four handlers of
    useWebSocket.ts, and the address it connects to. *)
Module SocketEvents.

(** What the socket delivers: open, close, error, or a message whose data
    [JSON.parse] turns into a value ([None] when it throws, which leaves
    the handler before any setter). *)
Inductive event :=
| Opened
| Closed
| Failed
| Message (parsed : option json).

Definition handle (st : UseWebSocket.State) (e : event) : UseWebSocket.State :=
  match e with
  | Opened => UseWebSocket.onopen st
  | Closed => UseWebSocket.onclose st
  | Failed => UseWebSocket.onerror st
  | Message (Some msg) => UseWebSocket.onmessage msg st
  | Message None => st
  end.

Definition run (events : list event) (st : UseWebSocket.State) : UseWebSocket.State :=
  foldl handle st events.

(** A message of the [WSMessage] union arrives. *)
Definition deliver (st : UseWebSocket.State) (m : Types.WSMessage) : UseWebSocket.State :=
  UseWebSocket.onmessage (Types.to_json m) st.

(** The payload of the last message of each kind in a stream. *)
Definition last_stage (msgs : list Types.WSMessage) : option string :=
  last (omap (λ m, match m with Types.Status stage _ _ => Some stage | _ => None end) msgs).
Definition last_report (msgs : list Types.WSMessage) : option string :=
  last (omap (λ m, match m with Types.Report src => Some src | _ => None end) msgs).
Definition last_error (msgs : list Types.WSMessage) : option string :=
  last (omap (λ m, match m with Types.Error detail => Some detail | _ => None end) msgs).

(** Whether the last open or close event of a trace was an open. *)
Definition last_link (events : list event) : option bool :=
  last (omap (λ e, match e with
                   | Opened => Some true
                   | Closed => Some false
                   | _ => None
                   end) events).

(** [window.location.protocol === "https:" ? "wss:" : "ws:"] *)
Definition socket_protocol (page_protocol : string) : string :=
  if String.eqb page_protocol "https:" then "wss:" else "ws:".

(** [`${protocol}//${window.location.host}/ws/research/${reportId}`] *)
Definition socket_url (page_protocol host reportId : string) : string :=
  socket_protocol page_protocol +:+ "//" +:+ host +:+ "/ws/research/" +:+ reportId.

(** The effect's guard [if (!reportId) return;] on [string | null]: the
    address to connect to, if any. *)
Definition connect_to (page_protocol host : string) (reportId : option string)
  : option string :=
  match reportId with
  | None => None
  | Some rid => if String.eqb rid "" then None
                else Some (socket_url page_protocol host rid)
  end.

End SocketEvents.

(** The module-level memo of useTypst.ts: [initPromise] (first revision)
    or [typstPromise] (second revision), filled by the first [getTypst()]. *)
Module TypstLoader.

Record State := {
  initPromise : option (UseTypst.settled unit);
  imports : nat;
}.

Definition initial : State := {| initPromise := None; imports := 0 |}.

Section Loader.

(** How the [n]-th dynamic import of typst.ts would settle. *)
Variable import_typst : nat → UseTypst.settled unit.

(** [if (!initPromise) initPromise = initTypst(); return initPromise;] *)
Definition getTypst (st : State) : UseTypst.settled unit * State :=
  match initPromise st with
  | Some p => (p, st)
  | None =>
      let p := import_typst (imports st) in
      (p, {| initPromise := Some p; imports := S (imports st) |})
  end.

(** [n] calls in a row: what each returned, and the state after. *)
Fixpoint getTypst_times (n : nat) (st : State)
  : list (UseTypst.settled unit) * State :=
  match n with
  | 0 => ([], st)
  | S n =>
      let '(p, st) := getTypst st in
      let '(ps, st) := getTypst_times n st in
      (p :: ps, st)
  end.

End Loader.

End TypstLoader.

(** Calls of [compile] that overlap: a call runs to its first [await], and
    the rest of it runs when its promises settle, in any order. *)
Module TypstSchedule.

Record Machine := {
  hook : UseTypst.State;
  pending : list string;
}.

Definition start : Machine := {| hook := UseTypst.initial; pending := [] |}.

Inductive action :=
| Call (source : string)
| Settle (i : nat).

Section Schedule.

Variable getTypst : UseTypst.settled unit.
Variable typst_svg : string → UseTypst.settled string.

Definition step (m : Machine) (a : action) : Machine :=
  match a with
  | Call source =>
      match UseTypst.compile_begin source (hook m) with
      | None => m
      | Some st => {| hook := st; pending := pending m ++ [source] |}
      end
  | Settle i =>
      match pending m !! i with
      | None => m
      | Some source =>
          {| hook := UseTypst.compile_settle getTypst typst_svg source (hook m);
             pending := delete i (pending m) |}
      end
  end.

Definition run (actions : list action) (m : Machine) : Machine :=
  foldl step m actions.

(** What calls run to completion, one after the other, keep true of the
    record of compiler calls: it ends with the last source (when the
    loader is there; it is empty when not), holds only sources that were
    passed in, none of them empty, and no source twice in a row. *)
Definition calls_sound (sources : list string) (st : UseTypst.State) : Prop :=
  (UseTypst.svg_calls st = []
   ∨ (∃ u, getTypst = UseTypst.Fulfilled u)
     ∧ last (UseTypst.svg_calls st) = Some (UseTypst.lastSource st))
  ∧ (∀ s, s ∈ UseTypst.svg_calls st → s ≠ "" ∧ s ∈ sources)
  ∧ (∀ i a b, UseTypst.svg_calls st !! i = Some a →
              UseTypst.svg_calls st !! S i = Some b → a ≠ b).

End Schedule.

(** The sources a schedule passes to [compile]. *)
Definition called (actions : list action) : list string :=
  omap (λ a, match a with Call source => Some source | Settle _ => None end) actions.

End TypstSchedule.

(** components/ReportViewer.tsx: which of its three returns the component
    takes, and what the last one shows. *)
Module ReportViewer.

Inductive body :=
| Fallback (error typstSource : string)
| Svg (html : string)
| Source (typstSource : string).

Inductive view :=
| Empty
| Loading (message : string)
| Viewer (badge : bool) (shown : body).

(** The four alternatives inside the loading paragraph. *)
Definition loading_message (stage : string) : string :=
  ChatSidebar.when (String.eqb stage "dispatching") "Sending query to research backends..."
  +:+ ChatSidebar.when (String.eqb stage "synthesizing") "Synthesizing findings..."
  +:+ ChatSidebar.when (String.eqb stage "generating") "Generating report..."
  +:+ ChatSidebar.when
        (negb (bool_decide (stage ∈ ["dispatching"; "synthesizing"; "generating"])))
        ("Working: " +:+ stage +:+ "...").

Definition render (typstSource stage : string) (hook : UseTypst.State) : view :=
  if String.eqb typstSource "" && String.eqb stage "" then Empty
  else if negb (String.eqb stage "") && negb (String.eqb stage "done")
  then Loading (loading_message stage)
  else Viewer (UseTypst.compiling hook)
         (if negb (String.eqb (UseTypst.error hook) "")
          then Fallback (UseTypst.error hook) typstSource
          else if negb (String.eqb (UseTypst.svg hook) "")
               then Svg (UseTypst.svg hook)
               else Source typstSource).

Definition is_loading (v : view) : bool :=
  match v with Loading _ => true | _ => false end.

End ReportViewer.

(** App.tsx: the submit handler and what the component hands to its two
    children. *)
Module App.

Record ResearchResponse := { brief_id : string; report_id : string }.

Record State := {
  reportId : option string;
  researching : bool;
}.

Definition initial : State := {| reportId := None; researching := false |}.

Definition setReportId (v : option string) (st : State) : State :=
  {| reportId := v; researching := researching st |}.
Definition setResearching (b : bool) (st : State) : State :=
  {| reportId := reportId st; researching := b |}.

(** How [fetch("/api/research", ...)] and [res.json()] turn out: the fetch
    rejects, or it gives a response with its [ok] flag and status, whose
    body parses to a [ResearchResponse] or does not. *)
Inductive fetched :=
| FetchRejected
| Responded (ok : bool) (status : Z) (body : option ResearchResponse).

Definition handleSubmit (r : fetched) (st : State) : State :=
  let st := setResearching true st in
  match r with
  | Responded true _ (Some data) => setReportId (Some (report_id data)) st
  | _ => setResearching false st
  end.

(** [researching && stage !== "done" && !error] *)
Definition isActive (st : State) (stage error : string) : bool :=
  researching st && negb (String.eqb stage "done") && String.eqb error "".

(** [isActive ? stage : typstSource ? "done" : ""] *)
Definition viewer_stage (st : State) (stage typstSource error : string) : string :=
  if isActive st stage error then stage
  else if negb (String.eqb typstSource "") then "done" else "".

(** What the report panel shows. *)
Definition panel (st : State) (stage typstSource error : string)
    (hook : UseTypst.State) : ReportViewer.view :=
  ReportViewer.render typstSource (viewer_stage st stage typstSource error) hook.

(** The sidebar's [disabled] prop. *)
Definition sidebar_disabled (st : State) (stage error : string) : bool :=
  isActive st stage error.

End App.

(** components/ChatSidebar.tsx: the form and the effects that write the
    chat log. *)
Module ChatForm.

Inductive role := user | system.

Record Message := {
  msg_role : role;
  content : string;
  timestamp : Z;
}.

Record State := {
  input : string;
  messages : list Message;
  lastStageRef : string;
}.

Definition initial : State :=
  {| input := ""; messages := []; lastStageRef := "" |}.

Definition append (m : Message) (st : State) : State :=
  {| input := input st; messages := messages st ++ [m];
     lastStageRef := lastStageRef st |}.
Definition setInput (v : string) (st : State) : State :=
  {| input := v; messages := messages st; lastStageRef := lastStageRef st |}.
Definition setLastStage (v : string) (st : State) : State :=
  {| input := input st; messages := messages st; lastStageRef := v |}.

Section Form.

(** [String.prototype.trim]. *)
Variable trim : string → string.

(** [handleSubmit]: the state after, and the query [onSubmit] is called
    with, if it is called.  [now] is the time [new Date()] gives. *)
Definition handleSubmit (now : Z) (disabled : bool) (st : State)
  : State * option string :=
  let query := trim (input st) in
  if String.eqb query "" || disabled then (st, None)
  else (setInput "" (append {| msg_role := user; content := query;
                               timestamp := now |} st),
        Some query).

(** The submit button's [disabled={disabled || !input.trim()}]. *)
Definition button_disabled (disabled : bool) (st : State) : bool :=
  disabled || String.eqb (trim (input st)) "".

(** The textarea's [onKeyDown]: Enter without Shift submits. *)
Definition onKeyDown (key : string) (shiftKey : bool) (now : Z)
    (disabled : bool) (st : State) : State * option string :=
  if String.eqb key "Enter" && negb shiftKey
  then handleSubmit now disabled st
  else (st, None).

End Form.

(** The stage effect of the revision with the backend rows: a system
    message for the major stage transitions only. *)
Definition stage_effect (now : Z) (stage : string) (st : State) : State :=
  if String.eqb stage "" || String.eqb stage (lastStageRef st) then st
  else
    let st := setLastStage stage st in
    if String.eqb stage "synthesizing"
    then append {| msg_role := system;
                   content := "All backends complete. Opus 4.6 synthesizing...";
                   timestamp := now |} st
    else if String.eqb stage "generating"
    then append {| msg_role := system; content := "Generating Typst report...";
                   timestamp := now |} st
    else if String.eqb stage "done"
    then append {| msg_role := system; content := "Report complete.";
                   timestamp := now |} st
    else st.

(** The error effect: [if (error) ...]. *)
Definition error_effect (now : Z) (error : string) (st : State) : State :=
  if String.eqb error "" then st
  else append {| msg_role := system; content := "Error: " +:+ error;
                 timestamp := now |} st.

(** The stage effect run for each stage of a sequence, at the given
    times. *)
Definition stage_effects (stages : list (Z * string)) (st : State) : State :=
  foldl (λ st p, stage_effect p.1 p.2 st) st stages.

Definition announcements : list string :=
  ["All backends complete. Opus 4.6 synthesizing..."; "Generating Typst report...";
   "Report complete."].

End ChatForm.

(** The status part of a backend row of ChatSidebar.tsx, on the string
    that [b.status] holds at run time. *)
Module StatusRows.




End StatusRows.

(** * Properties *)

(** ** The socket's message handler *)

Lemma type_tag_to_json (m : Types.WSMessage) :
  UseWebSocket.type_tag (Types.to_json m) = Some (Types.type_of m).
Proof. by destruct m. Qed.

Lemma onmessage_typstSource (msg : json) (st : UseWebSocket.State) :
  UseWebSocket.typstSource (UseWebSocket.onmessage msg st)
  = if decide (UseWebSocket.type_tag msg = Some "report")
    then prop msg "typst_source"
    else UseWebSocket.typstSource st.
Proof.
  unfold UseWebSocket.onmessage.
  destruct (UseWebSocket.type_tag msg) as [t|] eqn:Ht.
  - destruct (String.eqb_spec t "status") as [->|Hs];
      [by destruct msg|].
    destruct (String.eqb_spec t "report") as [->|Hr].
    { rewrite decide_True by done. by destruct msg. }
    rewrite decide_False by congruence.
    destruct (String.eqb_spec t "error"); by destruct msg.
  - rewrite decide_False by done. by destruct msg.
Qed.

(** C1, as the specification words it, fails: an event of type "document"
    carrying a document leaves the client's document state as it was, and
    the message variant that does carry the report has type "report". *)
Lemma document_event_ignored :
  UseWebSocket.onmessage (document_event (JStr "= Findings")) UseWebSocket.initial
    = UseWebSocket.initial
  ∧ UseWebSocket.typstSource
      (UseWebSocket.onmessage (document_event (JStr "= Findings")) UseWebSocket.initial)
    ≠ Some (JStr "= Findings")
  ∧ Types.type_of (Types.Report "= Findings") ≠ "document".
Proof. repeat split; compute; congruence. Qed.

(** C1 (amended): a report update travels as [{type: "report",
    typst_source}], and the handler sets its document state
    ([typstSource]) from the [typst_source] field of exactly the events
    whose type is "report": every other parsed value leaves it as it was. *)
Theorem report_event_updates_document :
  (∀ src : string,
      Types.to_json (Types.Report src)
        = JObj [("type", JStr "report"); ("typst_source", JStr src)])
  ∧ (∀ (m : Types.WSMessage) (st : UseWebSocket.State),
      UseWebSocket.typstSource (UseWebSocket.onmessage (Types.to_json m) st)
      = match m with
        | Types.Report src => Some (JStr src)
        | _ => UseWebSocket.typstSource st
        end)
  ∧ (∀ (msg : json) (st : UseWebSocket.State),
      UseWebSocket.typstSource (UseWebSocket.onmessage msg st)
      = if decide (UseWebSocket.type_tag msg = Some "report")
        then prop msg "typst_source"
        else UseWebSocket.typstSource st).
Proof.
  split; [done|]. split; [|apply onmessage_typstSource].
  intros m st. rewrite onmessage_typstSource, type_tag_to_json.
  destruct m; by compute.
Qed.

(** ** The Typst hook *)

Section UseTypstProps.

Variable getTypst : UseTypst.settled unit.
Variable typst_svg : string → UseTypst.settled string.

Local Abbreviation compile := (UseTypst.compile getTypst typst_svg).
Local Abbreviation compile_settle := (UseTypst.compile_settle getTypst typst_svg).

Lemma compile_begin_None (source : string) (st : UseTypst.State) :
  UseTypst.compile_begin source st = None
  ↔ source = "" ∨ source = UseTypst.lastSource st.
Proof.
  unfold UseTypst.compile_begin.
  destruct (String.eqb_spec source "") as [->|Hne]; simpl;
    [split; auto|].
  destruct (String.eqb_spec source (UseTypst.lastSource st)); simpl;
    [split; auto|].
  split; [done|]. by intros [?|?].
Qed.

Lemma compile_begin_Some (source : string) (st st' : UseTypst.State) :
  UseTypst.compile_begin source st = Some st' →
  st' = UseTypst.setError "" (UseTypst.setCompiling true
          (UseTypst.setLastSource source st)).
Proof.
  unfold UseTypst.compile_begin.
  destruct (_ || _); congruence.
Qed.

Lemma compile_settle_lastSource (source : string) (st : UseTypst.State) :
  UseTypst.lastSource (compile_settle source st) = UseTypst.lastSource st.
Proof.
  unfold UseTypst.compile_settle.
  destruct getTypst; [destruct (typst_svg source)|]; done.
Qed.

Lemma compile_settle_compiling (source : string) (st : UseTypst.State) :
  UseTypst.compiling (compile_settle source st) = false.
Proof.
  unfold UseTypst.compile_settle.
  destruct getTypst; [destruct (typst_svg source)|]; done.
Qed.

Lemma compile_settle_calls (source : string) (st : UseTypst.State) :
  (length (UseTypst.svg_calls (compile_settle source st))
   ≤ S (length (UseTypst.svg_calls st)))%nat.
Proof.
  unfold UseTypst.compile_settle.
  destruct getTypst; [destruct (typst_svg source)|]; simpl;
    rewrite ?length_app; simpl; lia.
Qed.

Lemma compile_skipped (source : string) (st : UseTypst.State) :
  source = "" ∨ source = UseTypst.lastSource st → compile source st = st.
Proof.
  intros H. apply compile_begin_None in H.
  unfold UseTypst.compile. by rewrite H.
Qed.

Lemma compile_lastSource (source : string) (st : UseTypst.State) :
  source = "" ∨ source = UseTypst.lastSource (compile source st).
Proof.
  unfold UseTypst.compile.
  destruct (UseTypst.compile_begin source st) as [st'|] eqn:Hb.
  - right. rewrite compile_settle_lastSource.
    by rewrite (compile_begin_Some _ _ _ Hb).
  - by apply compile_begin_None in Hb.
Qed.

Lemma compile_twice (source : string) (st : UseTypst.State) :
  compile source (compile source st) = compile source st.
Proof. apply compile_skipped, compile_lastSource. Qed.

(** C9: [compile] with an empty source, or with the source of the last
    compilation ([lastSource.current]), is the early return: the state,
    with svg, compiling, error and the record of compiler calls, is what it
    was.  Hence a second [compile] of the same source changes nothing and
    reaches the compiler no more, also when the first call has not settled
    yet; both calls together make at most one compiler call. *)
Theorem compile_same_source_once :
  (∀ st, compile "" st = st)
  ∧ (∀ st, compile (UseTypst.lastSource st) st = st)
  ∧ (∀ source st, compile source (compile source st) = compile source st)
  ∧ (∀ source st,
       (length (UseTypst.svg_calls (compile source (compile source st)))
        ≤ S (length (UseTypst.svg_calls st)))%nat)
  ∧ (∀ source st st',
       UseTypst.compile_begin source st = Some st' →
       UseTypst.compile_begin source st' = None).
Proof.
  split; [intros; apply compile_skipped; by left|].
  split; [intros; apply compile_skipped; by right|].
  split; [apply compile_twice|].
  split.
  - intros source st. rewrite compile_twice. unfold UseTypst.compile.
    destruct (UseTypst.compile_begin source st) as [st'|] eqn:Hb; [|lia].
    rewrite (compile_begin_Some _ _ _ Hb).
    etrans; [apply compile_settle_calls|]. done.
  - intros source st st' Hb. apply compile_begin_None. right.
    by rewrite (compile_begin_Some _ _ _ Hb).
Qed.

Lemma compile_all_compiling (sources : list string) (st : UseTypst.State) :
  UseTypst.compiling st = false →
  UseTypst.compiling (UseTypst.compile_all getTypst typst_svg sources st) = false.
Proof.
  revert st. induction sources as [|source sources IH]; intros st Hst; [done|].
  simpl. apply IH. unfold UseTypst.compile.
  destruct (UseTypst.compile_begin source st); [|done].
  apply compile_settle_compiling.
Qed.

(** C10: when the compilation of a source throws, the hook's error is the
    failure message (the [Error]'s message, or "Typst compilation failed"
    for any other thrown value) and the svg is the one rendered before;
    whether the promises are fulfilled or rejected, [compiling] is false
    once the call settles, from any state it settles in, and after any
    sequence of calls from the initial state. *)
Theorem failed_compile_keeps_svg :
  (∀ source st e,
      source ≠ "" → source ≠ UseTypst.lastSource st →
      UseTypst.compilation_throws getTypst typst_svg source e →
      UseTypst.error (compile source st) = UseTypst.failure_message e
      ∧ UseTypst.svg (compile source st) = UseTypst.svg st
      ∧ UseTypst.compiling (compile source st) = false)
  ∧ (∀ source st e,
      UseTypst.compilation_throws getTypst typst_svg source e →
      UseTypst.error (compile_settle source st) = UseTypst.failure_message e
      ∧ UseTypst.svg (compile_settle source st) = UseTypst.svg st)
  ∧ (∀ source st, UseTypst.compiling (compile_settle source st) = false)
  ∧ (∀ source st,
      source ≠ "" → source ≠ UseTypst.lastSource st →
      UseTypst.compiling (compile source st) = false)
  ∧ (∀ sources,
      UseTypst.compiling
        (UseTypst.compile_all getTypst typst_svg sources UseTypst.initial) = false).
Proof.
  assert (Hsettle : ∀ source st e,
    UseTypst.compilation_throws getTypst typst_svg source e →
    UseTypst.error (compile_settle source st) = UseTypst.failure_message e
    ∧ UseTypst.svg (compile_settle source st) = UseTypst.svg st).
  { intros source st e [Hload|[[u Hload] Hsvg]];
      unfold UseTypst.compile_settle; rewrite Hload; [done|].
    by rewrite Hsvg. }
  assert (Hbegin : ∀ source st,
    source ≠ "" → source ≠ UseTypst.lastSource st →
    ∃ st', UseTypst.compile_begin source st = Some st').
  { intros source st H1 H2.
    destruct (UseTypst.compile_begin source st) eqn:Hb; [by eexists|].
    apply compile_begin_None in Hb. by destruct Hb. }
  split; [|split; [done|split; [apply compile_settle_compiling|split]]].
  - intros source st e H1 H2 Hthrow.
    destruct (Hbegin source st H1 H2) as [st' Hb].
    unfold UseTypst.compile. rewrite Hb.
    destruct (Hsettle source st' e Hthrow) as [-> ->].
    rewrite compile_settle_compiling.
    by rewrite (compile_begin_Some _ _ _ Hb).
  - intros source st H1 H2.
    destruct (Hbegin source st H1 H2) as [st' Hb].
    unfold UseTypst.compile. rewrite Hb. apply compile_settle_compiling.
  - intros sources. by apply compile_all_compiling.
Qed.

End UseTypstProps.

Lemma compile_same_source_once_witness :
  UseTypst.compile_begin "= Report" UseTypst.initial
    = Some (UseTypst.setError "" (UseTypst.setCompiling true
             (UseTypst.setLastSource "= Report" UseTypst.initial)))
  ∧ UseTypst.compile_begin "= Report"
      (UseTypst.setError "" (UseTypst.setCompiling true
         (UseTypst.setLastSource "= Report" UseTypst.initial))) = None.
Proof.
  split; [reflexivity|].
  apply (proj2 (proj2 (proj2 (proj2
           (compile_same_source_once (UseTypst.Fulfilled ()) UseTypst.sample_svg))))
         "= Report" UseTypst.initial).
  reflexivity.
Defined.

Lemma failed_compile_keeps_svg_witness :
  let compile := UseTypst.compile (UseTypst.Fulfilled ()) UseTypst.sample_svg in
  let st := compile "= Report" UseTypst.initial in
  UseTypst.svg st = "<svg>= Report</svg>"
  ∧ UseTypst.error (compile "#bad(" st) = "unclosed delimiter"
  ∧ UseTypst.svg (compile "#bad(" st) = UseTypst.svg st
  ∧ UseTypst.compiling (compile "#bad(" st) = false.
Proof.
  split; [reflexivity|].
  apply (proj1 (failed_compile_keeps_svg (UseTypst.Fulfilled ()) UseTypst.sample_svg)
           "#bad(" _ (UseTypst.ErrorObject "unclosed delimiter")).
  - vm_compute. discriminate.
  - vm_compute. discriminate.
  - right. split; [by exists ()|reflexivity].
Defined.

(** ** Status events and the sidebar's backend rows *)









(** ** The conflict box *)

Lemma position_item_Some (pos : gmap string string) (src cl : string) :
  pos !! "source" = Some src → pos !! "claim" = Some cl →
  Typst.position_item pos = Some (Typst.member_item src cl (pos !! "citation")).
Proof.
  intros Hs Hc. unfold Typst.position_item, Typst.field, Typst.keys_contains.
  rewrite Hs, Hc. simpl.
  by destruct (pos !! "citation") as [c|] eqn:Hcit.
Qed.

Lemma texts_member_item (src cl : string) (citation : option string) :
  Typst.texts (Typst.member_item src cl citation)
  = [src; ": "; cl] ++ match citation with
                       | Some c => ["("; c; ")"]
                       | None => []
                       end.
Proof. by destruct citation. Qed.

(** The shape of every box: the title, one item per position, in order,
    and the resolution line. *)
Lemma conflict_box_items (topic : string) (positions : list (gmap string string))
    (resolution : option string) :
  Forall Typst.renderable positions →
  ∃ items,
    Typst.conflict_box topic positions resolution
    = Some (Typst.Block Typst.box_args
              ([Typst.Styled Typst.title_args
                  [Typst.Text "Disputed: "; Typst.Text topic];
                Typst.V "0.5em"]
               ++ items ++ Typst.resolution_line resolution))
    ∧ Forall2 (λ pos item,
         ∃ src cl, pos !! "source" = Some src ∧ pos !! "claim" = Some cl
                   ∧ item = Typst.member_item src cl (pos !! "citation"))
        positions items.
Proof.
  intros Hwf.
  assert (Hitems : ∃ items,
    mapM Typst.position_item positions = Some items
    ∧ Forall2 (λ pos item,
         ∃ src cl, pos !! "source" = Some src ∧ pos !! "claim" = Some cl
                   ∧ item = Typst.member_item src cl (pos !! "citation"))
        positions items).
  { induction Hwf as [|pos positions [[src Hs] [cl Hc]] _ (items & Hm & IH)].
    - exists []. by split; [|constructor].
    - exists (Typst.member_item src cl (pos !! "citation") :: items). split.
      + simpl. rewrite (position_item_Some pos src cl Hs Hc). simpl.
        by rewrite Hm.
      + constructor; [by exists src, cl|done]. }
  destruct Hitems as (items & Hm & HF). exists items. split; [|done].
  unfold Typst.conflict_box. by rewrite Hm.
Qed.

(** C2, as stated, fails for a member given without a citation: its item
    shows the backend and the claim text and nothing else. *)
Lemma conflict_box_member_without_citation :
  Typst.conflict_box "Revenue figures"
    [Typst.gemini_position; Typst.grok_position] None
  = Some (Typst.Block Typst.box_args
            [Typst.Styled Typst.title_args
               [Typst.Text "Disputed: "; Typst.Text "Revenue figures"];
             Typst.V "0.5em";
             Typst.Item [Typst.Strong [Typst.Text "Gemini"]; Typst.Text ": ";
                         Typst.Text "$2.1B";
                         Typst.Styled Typst.citation_args
                           [Typst.Text "("; Typst.Text "Reuters, Jan 2026";
                            Typst.Text ")"]];
             Typst.Item [Typst.Strong [Typst.Text "Grok"]; Typst.Text ": ";
                         Typst.Text "$1.8B"]]).
Proof. vm_compute. reflexivity. Qed.

(** C2 (amended): the box is a flagged block that has, for every position
    in order, one item with the position's backend name and claim text,
    followed by its citation in parentheses when the position has a
    citation key (and by nothing when it has none); the block ends with a
    resolution line exactly when a resolution is given. *)
Theorem conflict_box_lists_members (topic : string)
    (positions : list (gmap string string)) (resolution : option string) :
  Forall Typst.renderable positions →
  ∃ items,
    Typst.conflict_box topic positions resolution
    = Some (Typst.Block Typst.box_args
              ([Typst.Styled Typst.title_args
                  [Typst.Text "Disputed: "; Typst.Text topic];
                Typst.V "0.5em"]
               ++ items ++ Typst.resolution_line resolution))
    ∧ Forall2 (λ pos item,
         ∃ src cl body,
           pos !! "source" = Some src ∧ pos !! "claim" = Some cl
           ∧ item = Typst.Item body
           ∧ Typst.texts item
             = [src; ": "; cl] ++ match pos !! "citation" with
                                  | Some c => ["("; c; ")"]
                                  | None => []
                                  end)
        positions items
    ∧ Typst.texts (Typst.Block [] (Typst.resolution_line resolution))
      = match resolution with
        | Some r => ["Resolution: "; r]
        | None => []
        end.
Proof.
  intros Hwf.
  destruct (conflict_box_items topic positions resolution Hwf)
    as (items & Hbox & HF).
  exists items. split; [done|]. split; [|by destruct resolution].
  eapply Forall2_impl; [exact HF|].
  intros pos item (src & cl & Hs & Hc & ->).
  exists src, cl. eexists. repeat split; [done..|].
  apply texts_member_item.
Qed.

Lemma conflict_box_lists_members_witness :
  Forall Typst.renderable [Typst.gemini_position; Typst.grok_position]
  ∧ ∃ items,
      Typst.conflict_box "Revenue figures"
        [Typst.gemini_position; Typst.grok_position] (Some "Q4 restated")
      = Some (Typst.Block Typst.box_args
                ([Typst.Styled Typst.title_args
                    [Typst.Text "Disputed: "; Typst.Text "Revenue figures"];
                  Typst.V "0.5em"]
                 ++ items ++ Typst.resolution_line (Some "Q4 restated"))).
Proof.
  assert (Hwf : Forall Typst.renderable [Typst.gemini_position; Typst.grok_position]).
  { repeat constructor; vm_compute; eexists; reflexivity. }
  split; [exact Hwf|].
  destruct (conflict_box_lists_members "Revenue figures"
              [Typst.gemini_position; Typst.grok_position]
              (Some "Q4 restated") Hwf) as (items & Hbox & _).
  exists items. exact Hbox.
Defined.

(** ** The orchestrator core *)

Section CoreProps.

Variable topic_key_of : string → string.
Variable classify : string → string → Core.Similarity.
Variable parsable : Core.ClaimDraft → bool.
Variable default_confidence : Q.

Local Abbreviation add_or_merge_claim :=
  (Core.add_or_merge_claim topic_key_of classify default_confidence).
Local Abbreviation synthesize :=
  (Core.synthesize topic_key_of classify parsable default_confidence).
Local Abbreviation reachable :=
  (Core.reachable topic_key_of classify default_confidence).
Local Abbreviation run_round :=
  (Core.run_round topic_key_of classify parsable default_confidence).

(** *** Conflicts keep two members under one topic key *)

Lemma conflict_sound_mono (cl cl' : list Core.Claim) (x : Core.Conflict) :
  (∀ i c, cl !! i = Some c →
     ∃ c', cl' !! i = Some c' ∧ Core.id c' = Core.id c
           ∧ Core.topic_key c' = Core.topic_key c) →
  Core.conflict_sound cl x → Core.conflict_sound cl' x.
Proof.
  intros Hkeep [Hsize Hmem]. split; [done|].
  intros i Hi. destruct (Hmem i Hi) as (c & Hc & Hid & Hk).
  destruct (Hkeep i c Hc) as (c' & Hc' & Hid' & Hk').
  exists c'. split; [done|]. split; congruence.
Qed.

Lemma link_conflict_sound (cl : list Core.Claim) (k : string)
    (members : gset nat) (cs : list Core.Conflict) :
  Forall (Core.conflict_sound cl) cs →
  2 ≤ size members →
  (∀ i, i ∈ members →
     ∃ c, cl !! i = Some c ∧ Core.id c = i ∧ Core.topic_key c = k) →
  Forall (Core.conflict_sound cl) (Core.link_conflict k members cs).1.
Proof.
  intros Hcs Hsize Hmem. unfold Core.link_conflict.
  destruct (list_find _ cs) as [[j x]|] eqn:Hfind; simpl.
  - apply list_find_Some in Hfind as (Hj & Hk & _).
    apply Forall_insert; [done|].
    destruct (proj1 (Forall_lookup _ _) Hcs j x Hj) as [Hx Hxm].
    split; simpl.
    + etrans; [exact Hx|]. apply subseteq_size. set_solver.
    + intros i [Hi|Hi]%elem_of_union; [by apply Hxm|].
      rewrite Hk. by apply Hmem.
  - apply Forall_app. split; [done|]. constructor; [|done]. by split.
Qed.

Lemma add_or_merge_claim_sound (backend : string) (d : Core.ClaimDraft)
    (s : Core.ClaimStore) :
  Core.claims_indexed (Core.claims s) →
  Forall (Core.conflict_sound (Core.claims s)) (Core.conflicts s) →
  let s' := (add_or_merge_claim backend d s).1 in
  Core.claims_indexed (Core.claims s')
  ∧ Forall (Core.conflict_sound (Core.claims s')) (Core.conflicts s').
Proof.
  intros Hidx Hcs. unfold Core.add_or_merge_claim.
  set (k := topic_key_of (Core.draft_text d)).
  set (t := Core.draft_text d).
  destruct (list_find _ (Core.claims s)) as [[i c]|] eqn:Hfind.
  - (* merged into the claim at index [i] *)
    apply list_find_Some in Hfind as (Hi & _ & _). simpl.
    assert (Hkeep : ∀ j c0, Core.claims s !! j = Some c0 →
      ∃ c', <[i:=Core.merge_into backend d c]> (Core.claims s) !! j = Some c'
            ∧ Core.id c' = Core.id c0
            ∧ Core.topic_key c' = Core.topic_key c0).
    { intros j c0 Hj. destruct (decide (i = j)) as [->|Hne].
      - exists (Core.merge_into backend d c).
        rewrite list_lookup_insert_eq by (by eapply lookup_lt_Some).
        by simplify_eq.
      - exists c0. by rewrite list_lookup_insert_ne. }
    split.
    + intros j c' [(-> & <- & _)|[Hne Hj]]%list_lookup_insert_Some.
      * simpl. by apply Hidx.
      * by apply Hidx.
    + eapply Forall_impl; [exact Hcs|].
      intros x. by apply conflict_sound_mono.
  - (* a new claim at index [length (claims s)] *)
    set (i := length (Core.claims s)).
    set (c := Core.new_claim topic_key_of default_confidence i backend d).
    assert (Hkeep : ∀ j c0, Core.claims s !! j = Some c0 →
      ∃ c', (Core.claims s ++ [c]) !! j = Some c'
            ∧ Core.id c' = Core.id c0
            ∧ Core.topic_key c' = Core.topic_key c0).
    { intros j c0 Hj. exists c0.
      rewrite lookup_app_l by (by eapply lookup_lt_Some). done. }
    assert (Hidx' : Core.claims_indexed (Core.claims s ++ [c])).
    { intros j c' [[_ Hj]|[-> <-]]%lookup_snoc_Some; [by apply Hidx|done]. }
    assert (Hcs' : Forall (Core.conflict_sound (Core.claims s ++ [c]))
                     (Core.conflicts s)).
    { eapply Forall_impl; [exact Hcs|].
      intros x. by apply conflict_sound_mono. }
    destruct (Core.id <$> filter _ (Core.claims s)) as [|o os] eqn:Hopp;
      [done|].
    rewrite <- Hopp.
    set (opponents := Core.id <$> filter _ (Core.claims s)) in *.
    assert (Hold : ∀ m, m ∈ opponents →
      ∃ c0, Core.claims s !! m = Some c0 ∧ Core.id c0 = m
            ∧ Core.topic_key c0 = k).
    { intros m (c0 & -> & [[Hk _] Hin]%list_elem_of_filter)%list_elem_of_fmap.
      apply list_elem_of_lookup in Hin as [j Hj].
      rewrite (Hidx j c0 Hj). eauto. }
    destruct (Core.link_conflict k _ (Core.conflicts s)) as [cs j] eqn:Hlink.
    simpl. split; [done|].
    change cs with (cs, j).1. rewrite <- Hlink.
    apply link_conflict_sound; [done| |].
    + assert (Hone : o ∈ opponents) by (rewrite Hopp; left).
      rewrite size_union.
      * rewrite size_singleton.
        assert (size (list_to_set opponents : gset nat) ≠ 0); [|lia].
        intros Hz%size_empty_inv.
        apply (not_elem_of_empty (C:=gset nat) o), Hz.
        by apply elem_of_list_to_set.
      * apply disjoint_singleton_l. intros Hi%elem_of_list_to_set.
        destruct (Hold _ Hi) as (c0 & Hc0%lookup_lt_Some & _).
        unfold i in Hc0. lia.
    + intros m [->%elem_of_singleton|Hm%elem_of_list_to_set]%elem_of_union.
      * exists c. split; [by apply list_lookup_middle|done].
      * destruct (Hold m Hm) as (c0 & Hc0 & Hid & Hk).
        destruct (Hkeep m c0 Hc0) as (c' & Hc' & Hid' & Hk').
        exists c'. split; [done|]. split; congruence.
Qed.

Lemma add_or_merge_claim_claims (backend : string) (d : Core.ClaimDraft)
    (s : Core.ClaimStore) :
  (∃ i c, Core.claims s !! i = Some c
          ∧ Core.claims (add_or_merge_claim backend d s).1
            = <[i := Core.merge_into backend d c]> (Core.claims s))
  ∨ Core.claims (add_or_merge_claim backend d s).1
    = Core.claims s
      ++ [Core.new_claim topic_key_of default_confidence
            (length (Core.claims s)) backend d].
Proof.
  unfold Core.add_or_merge_claim.
  destruct (list_find _ (Core.claims s)) as [[i c]|] eqn:Hfind.
  - left. apply list_find_Some in Hfind as (Hi & _). by exists i, c.
  - right. destruct (Core.id <$> filter _ (Core.claims s)); [done|].
    by destruct (Core.link_conflict _ _ _).
Qed.

Lemma merge_into_sound (backend : string) (d : Core.ClaimDraft) (c : Core.Claim) :
  Core.claim_sound c → Core.claim_sound (Core.merge_into backend d c).
Proof.
  intros (Hb & Hc & Hcs). split; [|split]; simpl.
  - intros Hempty. apply Hb. by apply empty_union_L in Hempty as [? _].
  - by destruct (Core.citations c).
  - apply Forall_app. split.
    + eapply Forall_impl; [exact Hcs|]. intros ct [? ?].
      split; [done|]. by apply elem_of_union_l.
    + constructor; [|done]. split; [done|].
      by apply elem_of_union_r, elem_of_singleton.
Qed.

Lemma new_claim_sound (i : nat) (backend : string) (d : Core.ClaimDraft) :
  Core.claim_sound (Core.new_claim topic_key_of default_confidence i backend d).
Proof.
  split; [|split]; simpl.
  - intros Hempty.
    apply (not_elem_of_empty (C:=gset string) backend).
    rewrite <- Hempty. by apply elem_of_singleton.
  - done.
  - constructor; [|done]. split; [done|]. by apply elem_of_singleton.
Qed.

(** Referential integrity of citations and non-empty reporting backends,
    in every store the operations lead to. *)
Lemma reachable_claims_sound (s : Core.ClaimStore) :
  reachable s → Forall Core.claim_sound (Core.claims s).
Proof.
  induction 1 as [|s backend d _ IH|s src _ IH|s j r _ IH];
    [constructor| |done..].
  destruct (add_or_merge_claim_claims backend d s)
    as [(i & c & Hi & ->)| ->].
  - apply Forall_insert; [done|]. apply merge_into_sound.
    by apply (proj1 (Forall_lookup _ _) IH i c).
  - apply Forall_app. split; [done|].
    constructor; [apply new_claim_sound|done].
Qed.

Lemma size_list_to_set_le (l : list nat) :
  size (list_to_set l : gset nat) ≤ length l.
Proof.
  induction l as [|x l IH].
  - done.
  - rewrite list_to_set_cons, size_union_alt, size_singleton. simpl.
    assert (size (list_to_set l ∖ {[x]} : gset nat) ≤ size (list_to_set l : gset nat)).
    { apply subseteq_size. intros y Hy. by apply elem_of_difference in Hy as [? _]. }
    lia.
Qed.

Lemma length_bind_ge {A B} (f : A → list B) (l : list A) :
  Forall (λ x, f x ≠ []) l → length l ≤ length (l ≫= f).
Proof.
  induction 1 as [|x l Hx _ IH]; [done|].
  rewrite bind_cons, length_app. simpl.
  destruct (f x); [done|]. simpl. lia.
Qed.

Lemma block_positions_ge (cl : list Core.Claim) (x : Core.Conflict) :
  Forall Core.claim_sound cl →
  Core.conflict_sound cl x →
  2 ≤ length (Core.block_positions (Core.block_of cl x)).
Proof.
  intros Hcl [Hsize Hmem]. simpl.
  set (members := filter (λ c, Core.id c ∈ Core.member_claim_ids x) cl).
  assert (Hlen : size (Core.member_claim_ids x) ≤ length members).
  { etrans; [|etrans; [apply (size_list_to_set_le (Core.id <$> members))|]].
    - apply subseteq_size. intros i Hi.
      destruct (Hmem i Hi) as (c & Hc & Hid & _).
      apply elem_of_list_to_set, list_elem_of_fmap. exists c. split; [done|].
      apply list_elem_of_filter. split; [by rewrite Hid|].
      by eapply list_elem_of_lookup_2.
    - by rewrite length_fmap. }
  etrans; [|apply length_bind_ge].
  - lia.
  - apply Forall_forall. intros c [_ Hc]%list_elem_of_filter.
    destruct (proj1 (Forall_forall _ _) Hcl c Hc) as (_ & Hcit & _).
    unfold Core.positions_of. by destruct (Core.citations c).
Qed.

Lemma position_dictionary_renderable (p : Core.Position) :
  Typst.renderable (Core.position_dictionary p).
Proof.
  unfold Typst.renderable, Core.position_dictionary.
  destruct (Core.pos_citation p); split; eexists;
    by repeat (rewrite lookup_insert_ne by done || rewrite lookup_insert_eq).
Qed.

Lemma reachable_sound (s : Core.ClaimStore) :
  reachable s →
  Core.claims_indexed (Core.claims s)
  ∧ Forall (Core.conflict_sound (Core.claims s)) (Core.conflicts s).
Proof.
  induction 1 as [|s backend d _ [IH1 IH2]|s src _ IH|s j r _ [IH1 IH2]].
  - split; [by intros i c Hi|constructor].
  - by apply add_or_merge_claim_sound.
  - done.
  - split; [done|]. simpl. apply Forall_alter; [done|].
    intros x _ Hx. exact Hx.
Qed.

(** *** Duplicate drafts merge *)




(** *** A round in which every adapter fails *)

Lemma synthesize_not_ok (r : Core.BackendResult) (st : Core.ClaimStore) :
  Core.status r ≠ Core.ok → synthesize r st = (st, Core.no_change).
Proof. unfold Core.synthesize. by destruct (Core.status r). Qed.

Lemma absorb_failures (rs : list Core.BackendResult) (s : Core.Session) :
  Forall (λ r, Core.status r ≠ Core.ok) rs →
  Core.store
    (foldl (Core.absorb topic_key_of classify parsable default_confidence) s rs)
  = Core.store s.
Proof.
  intros Hrs. revert s. induction Hrs as [|r rs Hr _ IH]; intros s; [done|].
  simpl. rewrite IH. unfold Core.absorb. simpl.
  by rewrite synthesize_not_ok.
Qed.

Lemma all_failed_true (rs : list Core.BackendResult) :
  Forall (λ r, Core.status r ≠ Core.ok) rs → Core.all_failed rs = true.
Proof.
  induction 1 as [|r rs Hr _ IH]; [done|].
  simpl. rewrite IH. by rewrite bool_decide_eq_false_2.
Qed.

Lemma stage_close_failed (rs : list Core.BackendResult) (s : Core.Session) :
  Core.all_failed rs = true →
  Core.project_pass (Core.close_round rs s)
  = Core.with_failure (Core.failed_backends rs) (Core.with_stage Core.st_failed s).
Proof. intros H. unfold Core.close_round. by rewrite H. Qed.

Lemma add_sources_claims (srcs : list Core.Source) (st : Core.ClaimStore) :
  Core.claims (foldl (flip Core.add_source) st srcs) = Core.claims st
  ∧ Core.conflicts (foldl (flip Core.add_source) st srcs) = Core.conflicts st.
Proof.
  revert st. induction srcs as [|src srcs IH]; intros st; [done|].
  destruct (IH (flip Core.add_source st src)) as [IH1 IH2].
  split; [exact IH1|exact IH2].
Qed.

(** C4: a round in which every adapter fails or times out takes the
    session (idle, or done for a follow-up) to the failed stage; the
    failure detail names every backend of the round, each with why it
    failed, and only those; the store's Claims and Conflicts are the ones
    it had before the round, so the round adds none. *)
Theorem all_backends_failed (srcs : list Core.Source)
    (arrivals : list (string * Core.AdapterOutcome)) (s : Core.Session) :
  Core.stage s = Core.st_idle ∨ Core.stage s = Core.st_done →
  (∀ name o drafts, (name, o) ∈ arrivals → o ≠ Core.Returned drafts) →
  ∃ s',
    run_round srcs arrivals s = Some s'
    ∧ Core.stage s' = Core.st_failed
    ∧ (∀ name o, (name, o) ∈ arrivals →
         ∃ why, (name, why) ∈ Core.failure_detail s')
    ∧ (∀ name why, (name, why) ∈ Core.failure_detail s' →
         ∃ o, (name, o) ∈ arrivals)
    ∧ Core.claims (Core.store s') = Core.claims (Core.store s)
    ∧ Core.conflicts (Core.store s') = Core.conflicts (Core.store s).
Proof.
  intros Hstage Hfail.
  set (results := (λ a, Core.emit_result a.1 a.2) <$> arrivals).
  assert (Hrs : Forall (λ r, Core.status r ≠ Core.ok) results).
  { apply Forall_forall. intros r ([name o] & -> & Hin)%list_elem_of_fmap.
    destruct o as [drafts| |]; simpl; [|done..].
    by destruct (Hfail name _ drafts Hin). }
  set (s0 := Core.with_stage Core.st_dispatching
               (Core.with_store
                  (foldl (flip Core.add_source) (Core.store s) srcs) s)).
  assert (Hsub : Core.submit_query srcs s = Some s0).
  { unfold Core.submit_query. by destruct Hstage as [-> | ->]. }
  eexists. split.
  { unfold Core.run_round. rewrite Hsub. simpl. fold results.
    rewrite stage_close_failed by (by apply all_failed_true). done. }
  simpl. split; [done|]. rewrite absorb_failures by done. simpl.
  split; [|split; [|apply add_sources_claims]].
  - intros name o Hin.
    exists (default "" (Core.error_detail (Core.emit_result name o))).
    apply list_elem_of_omap. exists (Core.emit_result name o). split.
    + apply list_elem_of_fmap. by exists (name, o).
    + destruct o as [drafts| |]; simpl; [|done..].
      by destruct (Hfail name _ drafts Hin).
  - intros name why (r & ([n o] & -> & Hin)%list_elem_of_fmap & Hr)%list_elem_of_omap.
    exists o. destruct o; simpl in Hr; by simplify_eq.
Qed.

(** *** Error details of backend results *)


(** *** The Document Projector *)

Lemma project_pass_store (s : Core.Session) :
  Core.store (Core.project_pass s) = Core.store s.
Proof. unfold Core.project_pass. by destruct (Core.stage s). Qed.

(** *** Rounds stay within the reachable stores *)

Lemma synthesize_reachable (r : Core.BackendResult) (st : Core.ClaimStore) :
  reachable st → reachable (synthesize r st).1.
Proof.
  intros Hst. unfold Core.synthesize. destruct (Core.status r); [|done..].
  generalize (filter (λ d, parsable d = true) (Core.raw_claims r)).
  assert (Hacc : reachable (st, Core.no_change).1) by done.
  revert Hacc. generalize (st, Core.no_change).
  intros acc Hacc drafts. revert acc Hacc.
  induction drafts as [|d drafts IH]; intros acc Hacc; [done|].
  simpl. apply IH.
  pose proof (Core.reach_add_or_merge topic_key_of classify default_confidence
                acc.1 (Core.backend_name r) d Hacc) as Hnext.
  by destruct (add_or_merge_claim (Core.backend_name r) d acc.1).
Qed.

Lemma run_round_reachable (srcs : list Core.Source)
    (arrivals : list (string * Core.AdapterOutcome)) (s s' : Core.Session) :
  reachable (Core.store s) →
  run_round srcs arrivals s = Some s' →
  reachable (Core.store s').
Proof.
  intros Hs. unfold Core.run_round.
  destruct (Core.submit_query srcs s) as [s0|] eqn:Hsub; simpl; [|done].
  intros [= <-]. rewrite project_pass_store.
  assert (Hadd : ∀ st, reachable st →
            reachable (foldl (flip Core.add_source) st srcs)).
  { clear. induction srcs as [|src srcs IH]; intros st Hst; [done|].
    simpl. apply IH. by constructor. }
  assert (Hs0 : reachable (Core.store s0)).
  { unfold Core.submit_query in Hsub.
    destruct (Core.stage s); simplify_eq; simpl; by apply Hadd. }
  clear Hsub.
  assert (Hfold : ∀ rs s0, reachable (Core.store s0) →
            reachable (Core.store
              (foldl (Core.absorb topic_key_of classify parsable default_confidence)
                 s0 rs))).
  { induction rs as [|r rs IH]; intros s1 Hs1; [done|].
    simpl. apply IH. simpl. by apply synthesize_reachable. }
  unfold Core.close_round. destruct (Core.all_failed _); simpl; by apply Hfold.
Qed.

(** Called on its own, the conflict box takes any list of positions: none
    (its default) or a single one. *)
Lemma conflict_box_renders_fewer_than_two :
  Typst.conflict_box_default
  = Some (Typst.Block Typst.box_args
            [Typst.Styled Typst.title_args
               [Typst.Text "Disputed: "; Typst.Text ""];
             Typst.V "0.5em"])
  ∧ Typst.conflict_box "Revenue figures" [Typst.grok_position] None
    = Some (Typst.Block Typst.box_args
              [Typst.Styled Typst.title_args
                 [Typst.Text "Disputed: "; Typst.Text "Revenue figures"];
               Typst.V "0.5em";
               Typst.Item [Typst.Strong [Typst.Text "Grok"]; Typst.Text ": ";
                           Typst.Text "$1.8B"]]).
Proof. split; vm_compute; reflexivity. Qed.

(** C6: in every store the Claim Store operations lead to, and so in
    every session after a round, each Conflict has at least two distinct
    member ids, and every member id is the id of a Claim of the store under
    the conflict's topic key: no operation produces a Conflict with fewer
    than two members.  Every conflict block the Projector derives from such
    a store has at least two positions, and the conflict box renders it
    with one item for each: no Conflict is rendered with fewer than two
    members. *)
Theorem conflicts_keep_two_members :
  (∀ s x,
      reachable s → x ∈ Core.conflicts s →
      2 ≤ size (Core.member_claim_ids x)
      ∧ ∀ i, i ∈ Core.member_claim_ids x →
             ∃ c, Core.claims s !! i = Some c ∧ Core.id c = i
                  ∧ Core.topic_key c = Core.conflict_topic_key x)
  ∧ (∀ srcs arrivals s s' x,
      reachable (Core.store s) →
      run_round srcs arrivals s = Some s' →
      x ∈ Core.conflicts (Core.store s') →
      2 ≤ size (Core.member_claim_ids x)
      ∧ ∀ i, i ∈ Core.member_claim_ids x →
             ∃ c, Core.claims (Core.store s') !! i = Some c ∧ Core.id c = i
                  ∧ Core.topic_key c = Core.conflict_topic_key x)
  ∧ (∀ s query sec b,
      reachable s →
      sec ∈ Core.doc_sections (Core.project (Core.get_snapshot s) query) →
      b ∈ Core.section_conflicts sec →
      2 ≤ length (Core.block_positions b)
      ∧ ∃ items,
          Core.render_block b
          = Some (Typst.Block Typst.box_args
                    ([Typst.Styled Typst.title_args
                        [Typst.Text "Disputed: "; Typst.Text (Core.block_topic b)];
                      Typst.V "0.5em"]
                     ++ items ++ Typst.resolution_line (Core.block_resolution b)))
          ∧ length items = length (Core.block_positions b)).
Proof.
  assert (Hstore : ∀ s x,
    reachable s → x ∈ Core.conflicts s → Core.conflict_sound (Core.claims s) x).
  { intros s x Hs Hx. destruct (reachable_sound s Hs) as [_ Hcs].
    by apply (proj1 (Forall_forall _ _) Hcs). }
  split; [exact Hstore|]. split.
  - intros srcs arrivals s s' x Hs Hrun Hx.
    apply Hstore; [|done]. by eapply run_round_reachable.
  - intros s query sec b Hs Hsec Hb.
    apply list_elem_of_fmap in Hsec as (k & -> & _). simpl in Hb.
    apply list_elem_of_fmap in Hb as (x & -> & [_ Hx]%list_elem_of_filter).
    simpl in Hx. destruct (reachable_sound s Hs) as [_ Hcs].
    split.
    + apply block_positions_ge; [by apply reachable_claims_sound|].
      by apply (proj1 (Forall_forall _ _) Hcs).
    + unfold Core.render_block.
      destruct (conflict_box_items (Core.block_topic (Core.block_of (Core.claims s) x))
                  (Core.position_dictionary
                     <$> Core.block_positions (Core.block_of (Core.claims s) x))
                  (Core.block_resolution (Core.block_of (Core.claims s) x)))
        as (items & Hbox & HF).
      { apply Forall_fmap, Forall_forall. intros p _.
        apply position_dictionary_renderable. }
      exists items. split; [done|].
      apply Forall2_length in HF. by rewrite length_fmap in HF.
Qed.

End CoreProps.

(** *** The scenarios of the specification

    A summary of a session: its stage, then for each Claim its text, how
    many backends report it and how many citations it has, then for each
    Conflict which of the Claims 0 and 1 are members and how many members
    it has. *)

Lemma scenario_conflicting :
  (λ s, (Core.stage s,
         (λ c, (Core.text c, size (Core.reporting_backends c),
                length (Core.citations c))) <$> Core.claims (Core.store s),
         (λ x, (bool_decide (0 ∈ Core.member_claim_ids x),
                bool_decide (1 ∈ Core.member_claim_ids x),
                size (Core.member_claim_ids x))) <$> Core.conflicts (Core.store s)))
    <$> Core.run_round Core.sample_topic_key Core.sample_classify (λ _, true) 1%Q []
          [("A", Core.Returned [Core.sample_draft "Revenue is $2.1B"]);
           ("B", Core.Returned [Core.sample_draft "Revenue is $1.8B"])]
          (Core.new_session 0 "Acme revenue 2025")
  = Some (Core.st_done,
          [("Revenue is $2.1B", 1, 1); ("Revenue is $1.8B", 1, 1)],
          [(true, true, 2)]).
Proof. vm_compute. reflexivity. Qed.

Lemma scenario_duplicate :
  (λ s, (Core.stage s,
         (λ c, (Core.text c, size (Core.reporting_backends c),
                length (Core.citations c))) <$> Core.claims (Core.store s),
         length (Core.conflicts (Core.store s))))
    <$> Core.run_round Core.sample_topic_key Core.sample_classify (λ _, true) 1%Q []
          [("A", Core.Returned [Core.sample_draft "Revenue is $2.1B"]);
           ("B", Core.Returned [Core.sample_draft "Revenue came to $2.1B"])]
          (Core.new_session 0 "Acme revenue 2025")
  = Some (Core.st_done, [("Revenue is $2.1B", 2, 2)], 0).
Proof. vm_compute. reflexivity. Qed.

Lemma scenario_one_timeout :
  (λ s, (Core.stage s,
         Core.text <$> Core.claims (Core.store s),
         Core.failure_detail s))
    <$> Core.run_round Core.sample_topic_key Core.sample_classify (λ _, true) 1%Q []
          [("A", Core.Returned [Core.sample_draft "Revenue is $2.1B"]);
           ("C", Core.DeadlineExceeded);
           ("B", Core.Returned [Core.sample_draft "Revenue is $1.8B"])]
          (Core.new_session 0 "Acme revenue 2025")
  = Some (Core.st_done, ["Revenue is $2.1B"; "Revenue is $1.8B"], []).
Proof. vm_compute. reflexivity. Qed.

Lemma scenario_timeout_event :
  Core.backend_update (Core.emit_result "C" Core.DeadlineExceeded)
  = Types.BackendUpdate "C" Types.update_failed None (Some "timed out").
Proof. reflexivity. Qed.

(** ** Instances *)





Lemma all_backends_failed_witness :
  let arrivals := [("gemini", Core.Errored "HTTP 500"); ("grok", Core.DeadlineExceeded)] in
  let s := Core.new_session 0 "Acme revenue 2025" in
  Core.stage s = Core.st_idle
  ∧ ∃ s', Core.run_round Core.sample_topic_key Core.sample_classify (λ _, true) 1%Q
            [] arrivals s = Some s'
          ∧ Core.stage s' = Core.st_failed
          ∧ Core.claims (Core.store s') = [].
Proof.
  intros arrivals s. split; [reflexivity|].
  destruct (all_backends_failed Core.sample_topic_key Core.sample_classify
              (λ _, true) 1%Q [] arrivals s)
    as (s' & Hrun & Hstage & _ & _ & Hclaims & _).
  - left. reflexivity.
  - intros name o drafts Hin ->.
    apply elem_of_cons in Hin as [Hin|Hin]; [discriminate|].
    apply elem_of_cons in Hin as [Hin|Hin]; [discriminate|].
    by apply elem_of_nil in Hin.
  - exists s'. split; [exact Hrun|]. split; [exact Hstage|exact Hclaims].
Defined.

Lemma conflicts_keep_two_members_witness :
  let add := Core.add_or_merge_claim Core.sample_topic_key Core.sample_classify 1%Q in
  let s := (add "grok" (Core.sample_draft "Revenue is $1.8B")
              (add "gemini" (Core.sample_draft "Revenue is $2.1B")
                 Core.empty_store).1).1 in
  Core.reachable Core.sample_topic_key Core.sample_classify 1%Q s
  ∧ ∃ x, Core.conflicts s !! 0 = Some x
         ∧ 2 ≤ size (Core.member_claim_ids x).
Proof.
  intros add s.
  assert (Hs : Core.reachable Core.sample_topic_key Core.sample_classify 1%Q s).
  { apply Core.reach_add_or_merge, Core.reach_add_or_merge, Core.reach_empty. }
  split; [exact Hs|].
  assert (Hx : ∃ x, Core.conflicts s !! 0 = Some x).
  { vm_compute. eexists. reflexivity. }
  destruct Hx as [x Hx]. exists x. split; [exact Hx|].
  apply (proj1 (conflicts_keep_two_members Core.sample_topic_key
                  Core.sample_classify (λ _, true) 1%Q) s x Hs).
  by eapply list_elem_of_lookup_2.
Defined.

(** * More properties of the frontend *)

(** ** The socket handlers over streams *)

Lemma onmessage_cases (msg : json) (st : UseWebSocket.State) :
  UseWebSocket.onmessage msg st
  = match UseWebSocket.type_tag msg with
    | Some t =>
        if String.eqb t "status" then UseWebSocket.setStage (prop msg "stage") st
        else if String.eqb t "report"
             then UseWebSocket.setTypstSource (prop msg "typst_source") st
             else if String.eqb t "error"
                  then UseWebSocket.setError (prop msg "detail") st
                  else st
    | None => st
    end.
Proof. by destruct msg. Qed.

(** X1: of a message of the union the handler keeps one field: a status
    message sets the stage and drops its backends and detail, a report sets
    the document source, an error sets the error; backend_update and ack
    messages change nothing. *)
Theorem deliver_keeps_one_field (m : Types.WSMessage) (st : UseWebSocket.State) :
  SocketEvents.deliver st m
  = match m with
    | Types.Status stage _ _ => UseWebSocket.setStage (Some (JStr stage)) st
    | Types.Report src => UseWebSocket.setTypstSource (Some (JStr src)) st
    | Types.Error detail => UseWebSocket.setError (Some (JStr detail)) st
    | Types.BackendUpdate _ _ _ _ | Types.Ack _ => st
    end.
Proof.
  unfold SocketEvents.deliver.
  destruct m as [stage [bs|] [d|]|n s [c|] [e|]|src|d|a]; reflexivity.
Qed.

(** X2: a message delivered twice has the effect of one delivery. *)
Theorem onmessage_idempotent (msg : json) (st : UseWebSocket.State) :
  UseWebSocket.onmessage msg (UseWebSocket.onmessage msg st)
  = UseWebSocket.onmessage msg st.
Proof.
  rewrite !onmessage_cases.
  destruct (UseWebSocket.type_tag msg) as [t|]; [|done].
  destruct (String.eqb t "status"); [done|].
  destruct (String.eqb t "report"); [done|].
  by destruct (String.eqb t "error").
Qed.

(** X3: the parsed values the handler ignores in every state are exactly
    those whose [type] is not one of the strings "status", "report" and
    "error". *)
Theorem onmessage_ignored_iff (msg : json) :
  (∀ st, UseWebSocket.onmessage msg st = st)
  ↔ ∀ t, UseWebSocket.type_tag msg = Some t →
         t ≠ "status" ∧ t ≠ "report" ∧ t ≠ "error".
Proof.
  split.
  - intros Hsame t Ht.
    pose proof (Hsame UseWebSocket.initial) as H1.
    pose proof (Hsame (UseWebSocket.setError None
                         (UseWebSocket.setTypstSource None
                            (UseWebSocket.setStage None UseWebSocket.initial)))) as H2.
    rewrite onmessage_cases, Ht in H1, H2.
    destruct (String.eqb_spec t "status") as [->|?].
    { exfalso. injection H1 as H1. injection H2 as H2. congruence. }
    destruct (String.eqb_spec t "report") as [->|?].
    { exfalso. injection H1 as H1. injection H2 as H2. congruence. }
    destruct (String.eqb_spec t "error") as [->|?]; [|done].
    exfalso. injection H1 as H1. injection H2 as H2. congruence.
  - intros Hother st. rewrite onmessage_cases.
    destruct (UseWebSocket.type_tag msg) as [t|]; [|done].
    destruct (Hother t eq_refl) as (H1 & H2 & H3).
    destruct (String.eqb_spec t "status"); [done|].
    destruct (String.eqb_spec t "report"); [done|].
    by destruct (String.eqb_spec t "error").
Qed.

(** X4: after any stream of messages of the union, each of the three
    fields holds the payload of the last message of its kind, or what it
    held before when there was none; the connected flag is as it was. *)
Theorem stream_last_message_wins (msgs : list Types.WSMessage)
    (st : UseWebSocket.State) :
  let st' := foldl SocketEvents.deliver st msgs in
  UseWebSocket.stage st'
    = from_option (λ s, Some (JStr s)) (UseWebSocket.stage st)
        (SocketEvents.last_stage msgs)
  ∧ UseWebSocket.typstSource st'
    = from_option (λ s, Some (JStr s)) (UseWebSocket.typstSource st)
        (SocketEvents.last_report msgs)
  ∧ UseWebSocket.error st'
    = from_option (λ s, Some (JStr s)) (UseWebSocket.error st)
        (SocketEvents.last_error msgs)
  ∧ UseWebSocket.connected st' = UseWebSocket.connected st.
Proof.
  induction msgs as [|m msgs IH] using rev_ind; [done|].
  simpl. rewrite foldl_snoc, deliver_keeps_one_field.
  unfold SocketEvents.last_stage, SocketEvents.last_report,
    SocketEvents.last_error in *.
  rewrite !omap_app.
  destruct IH as (IH1 & IH2 & IH3 & IH4).
  destruct m; simpl; rewrite ?app_nil_r, ?last_snoc; simpl; done.
Qed.

Lemma handle_connected (st : UseWebSocket.State) (e : SocketEvents.event) :
  UseWebSocket.connected (SocketEvents.handle st e)
  = match e with
    | SocketEvents.Opened => true
    | SocketEvents.Closed => false
    | _ => UseWebSocket.connected st
    end.
Proof.
  destruct e as [| | |[msg|]]; try done.
  simpl. rewrite onmessage_cases.
  destruct (UseWebSocket.type_tag msg) as [t|]; [|done].
  destruct (String.eqb t "status"); [done|].
  destruct (String.eqb t "report"); [done|].
  by destruct (String.eqb t "error").
Qed.

(** X5: after any trace of socket events the connected flag tells whether
    the last open-or-close event was an open; a socket error and a message,
    whatever it holds, leave the flag alone. *)
Theorem connected_follows_open_close (events : list SocketEvents.event)
    (st : UseWebSocket.State) :
  UseWebSocket.connected (SocketEvents.run events st)
  = default (UseWebSocket.connected st) (SocketEvents.last_link events).
Proof.
  unfold SocketEvents.run, SocketEvents.last_link.
  induction events as [|e events IH] using rev_ind; [done|].
  rewrite foldl_snoc, handle_connected, omap_app.
  destruct e; simpl; rewrite ?app_nil_r, ?last_snoc; done.
Qed.

Lemma append_cancel_l (p a b : string) : p +:+ a = p +:+ b → a = b.
Proof. induction p as [|c p IH]; simpl; [done|]. intros [= H]. by apply IH. Qed.

(** X6: the hook connects for no report id and for the empty one only;
    two report ids lead to the same address only if they are equal; and
    the address is a wss one exactly on an https page. *)
Theorem socket_address (page_protocol host : string) :
  (∀ reportId,
      SocketEvents.connect_to page_protocol host reportId = None
      ↔ reportId = None ∨ reportId = Some "")
  ∧ (∀ r1 r2,
      SocketEvents.connect_to page_protocol host (Some r1)
      = SocketEvents.connect_to page_protocol host (Some r2) → r1 = r2)
  ∧ (∀ reportId url,
      SocketEvents.connect_to page_protocol host reportId = Some url →
      (∃ rest, url = "wss:" +:+ rest) ↔ page_protocol = "https:").
Proof.
  split; [|split].
  - intros [r|]; simpl; [|by split; auto].
    destruct (String.eqb_spec r "") as [->|Hr]; split; auto.
    + done.
    + intros [?|[= ?]]; done.
  - intros r1 r2. simpl.
    destruct (String.eqb_spec r1 "") as [->|H1];
      destruct (String.eqb_spec r2 "") as [->|H2]; try done.
    intros [= H]. unfold SocketEvents.socket_url in H.
    by repeat apply append_cancel_l in H.
  - intros [r|] url; simpl; [|done].
    destruct (String.eqb r ""); [done|]. intros [= <-].
    unfold SocketEvents.socket_url, SocketEvents.socket_protocol.
    destruct (String.eqb_spec page_protocol "https:") as [->|Hp]; split.
    + done.
    + intros _. by eexists.
    + intros [rest H]. simpl in H. discriminate.
    + done.
Qed.

(** ** Loading typst.ts once *)

Lemma getTypst_times_loaded (import_typst : nat → UseTypst.settled unit)
    (n : nat) (st : TypstLoader.State) (p : UseTypst.settled unit) :
  TypstLoader.initPromise st = Some p →
  TypstLoader.getTypst_times import_typst n st = (replicate n p, st).
Proof.
  intros Hp. induction n as [|n IH]; [done|].
  simpl. unfold TypstLoader.getTypst. rewrite Hp.
  fold (TypstLoader.getTypst import_typst). by rewrite IH.
Qed.

(** X7: however often [getTypst] is called, typst.ts is imported once, by
    the first call, and every call returns that import's promise, also
    when it is a rejected one: a failed load is not tried again. *)
Theorem getTypst_imports_once (import_typst : nat → UseTypst.settled unit)
    (n : nat) :
  TypstLoader.getTypst_times import_typst (S n) TypstLoader.initial
  = (replicate (S n) (import_typst 0),
     {| TypstLoader.initPromise := Some (import_typst 0);
        TypstLoader.imports := 1 |}).
Proof.
  simpl. by rewrite (getTypst_times_loaded import_typst n _ (import_typst 0)).
Qed.

(** ** Compilations, one after the other and overlapping *)

Section TypstRuns.

Variable getTypst : UseTypst.settled unit.
Variable typst_svg : string → UseTypst.settled string.

Local Abbreviation compile := (UseTypst.compile getTypst typst_svg).
Local Abbreviation compile_all := (UseTypst.compile_all getTypst typst_svg).
Local Abbreviation run := (TypstSchedule.run getTypst typst_svg).
Local Abbreviation step := (TypstSchedule.step getTypst typst_svg).

(** X8: a compilation that succeeds shows its result and no error: the svg
    is the compiler's output, the error of an earlier failure is cleared,
    compiling is off, and the source is remembered as the last one. *)
Theorem successful_compile_clears_error (source result : string)
    (st : UseTypst.State) :
  source ≠ "" → source ≠ UseTypst.lastSource st →
  (∃ u, getTypst = UseTypst.Fulfilled u) →
  typst_svg source = UseTypst.Fulfilled result →
  compile source st
  = {| UseTypst.svg := result; UseTypst.compiling := false;
       UseTypst.error := ""; UseTypst.lastSource := source;
       UseTypst.svg_calls := UseTypst.svg_calls st ++ [source] |}.
Proof.
  intros H1 H2 [u Hu] Hsvg. unfold UseTypst.compile, UseTypst.compile_begin.
  destruct (String.eqb_spec source "") as [?|_]; [done|].
  destruct (String.eqb_spec source (UseTypst.lastSource st)) as [?|_]; [done|].
  simpl. unfold UseTypst.compile_settle. by rewrite Hu, Hsvg.
Qed.

Lemma compile_calls_sound (sources : list string) (source : string)
    (st : UseTypst.State) :
  TypstSchedule.calls_sound getTypst sources st →
  TypstSchedule.calls_sound getTypst (sources ++ [source]) (compile source st).
Proof.
  intros (Hlast & Hin & Hrep).
  assert (Hkeep : TypstSchedule.calls_sound getTypst (sources ++ [source]) st).
  { split; [done|]. split; [|done].
    intros s Hs. destruct (Hin s Hs). split; [done|].
    apply elem_of_app. by left. }
  unfold UseTypst.compile, UseTypst.compile_begin.
  destruct (String.eqb_spec source "") as [?|Hne]; [done|].
  destruct (String.eqb_spec source (UseTypst.lastSource st)) as [?|Hnl]; [done|].
  simpl. unfold UseTypst.compile_settle.
  destruct getTypst as [u|e] eqn:Hget.
  - assert (Hgoal : TypstSchedule.calls_sound (UseTypst.Fulfilled u)
      (sources ++ [source])
      (UseTypst.record_svg_call source
         (UseTypst.setError "" (UseTypst.setCompiling true
            (UseTypst.setLastSource source st))))).
    { split; [|split]; simpl.
      - right. split; [by exists u|]. apply last_snoc.
      - intros s [Hs| ->%list_elem_of_singleton]%elem_of_app.
        + destruct (Hin s Hs). split; [done|]. apply elem_of_app. by left.
        + split; [done|]. apply elem_of_app. right. by apply list_elem_of_singleton.
      - intros i a b Ha Hb.
        apply lookup_snoc_Some in Hb as [[Hlt Hb]|[Hi <-]].
        + rewrite lookup_app_l in Ha by lia. by eapply Hrep.
        + rewrite lookup_app_l in Ha by lia.
          destruct Hlast as [Hnil|[_ Hlast]]; [by rewrite Hnil in Ha|].
          rewrite last_lookup, <- Hi in Hlast. simpl in Hlast. congruence. }
    by destruct (typst_svg source).
  - destruct Hkeep as (_ & Hk2 & Hk3). split; [|done].
    destruct Hlast as [Hnil|[[u Hu] _]]; [by left|done].
Qed.

(** X9: when calls of [compile] run to completion one after the other,
    from the hook's initial state, the compiler is only ever called with
    sources that were passed in, never with the empty source, and never
    twice in a row with the same source. *)
Theorem sequential_compiler_calls (sources : list string) :
  let calls := UseTypst.svg_calls (compile_all sources UseTypst.initial) in
  (∀ s, s ∈ calls → s ≠ "" ∧ s ∈ sources)
  ∧ (∀ i a b, calls !! i = Some a → calls !! S i = Some b → a ≠ b).
Proof.
  assert (H : TypstSchedule.calls_sound getTypst sources
                (compile_all sources UseTypst.initial)).
  { induction sources as [|source sources IH] using rev_ind.
    - split; [by left|]. split; [by intros s Hs%elem_of_nil|done].
    - unfold UseTypst.compile_all. rewrite foldl_snoc.
      by apply compile_calls_sound. }
  by destruct H as (_ & H2 & H3).
Qed.

(** What every schedule keeps true: a source waiting to settle was passed
    to [compile] and is not empty, the compiling flag is on only while a
    call waits, and the svg is empty or the compiler's output for a source
    that was passed in. *)
Lemma run_sound (actions : list TypstSchedule.action) :
  let m := run actions TypstSchedule.start in
  Forall (λ s, s ≠ "" ∧ s ∈ TypstSchedule.called actions) (TypstSchedule.pending m)
  ∧ (UseTypst.compiling (TypstSchedule.hook m) = true →
     TypstSchedule.pending m ≠ [])
  ∧ (UseTypst.svg (TypstSchedule.hook m) = ""
     ∨ ∃ s, s ∈ TypstSchedule.called actions ∧ s ≠ ""
            ∧ typst_svg s = UseTypst.Fulfilled (UseTypst.svg (TypstSchedule.hook m))).
Proof.
  induction actions as [|a actions IH] using rev_ind.
  { split; [constructor|]. split; [done|by left]. }
  unfold TypstSchedule.run, TypstSchedule.called in *.
  rewrite foldl_snoc, omap_app.
  set (m := foldl step TypstSchedule.start actions) in *.
  set (seen := omap _ actions) in *.
  simpl in IH. destruct IH as (Hpend & Hbadge & Hsvg).
  assert (Hmono : ∀ s extra, s ∈ seen → s ∈ seen ++ extra).
  { intros s extra Hs. apply elem_of_app. by left. }
  destruct a as [source|i]; simpl.
  - (* a call *)
    unfold UseTypst.compile_begin.
    destruct (String.eqb_spec source "") as [?|Hne]; simpl.
    { split; [|split; [done|]].
      - eapply Forall_impl; [exact Hpend|]. intros s [? ?]. auto.
      - destruct Hsvg as [?|(s & ? & ? & ?)]; [by left|right; eauto]. }
    destruct (String.eqb_spec source (UseTypst.lastSource (TypstSchedule.hook m)))
      as [?|Hnl]; simpl.
    { split; [|split; [done|]].
      - eapply Forall_impl; [exact Hpend|]. intros s [? ?]. auto.
      - destruct Hsvg as [?|(s & ? & ? & ?)]; [by left|right; eauto]. }
    split; [|split].
    + apply Forall_app. split.
      * eapply Forall_impl; [exact Hpend|]. intros s [? ?]. auto.
      * constructor; [|done]. split; [done|].
        apply elem_of_app. right. by apply list_elem_of_singleton.
    + intros _. by destruct (TypstSchedule.pending m).
    + destruct Hsvg as [?|(s & ? & ? & ?)]; [by left|right; eauto].
  - (* a call settles *)
    rewrite app_nil_r.
    destruct (TypstSchedule.pending m !! i) as [source|] eqn:Hi; simpl; [|done].
    destruct (proj1 (Forall_lookup _ _) Hpend i source Hi) as [Hne Hseen].
    split; [by apply Forall_delete|].
    unfold UseTypst.compile_settle.
    destruct getTypst as [u|e]; [destruct (typst_svg source) as [r|e] eqn:Hr|];
      simpl; (split; [done|]); try done.
    right. by exists source.
Qed.

(** X10: however calls of [compile] overlap and in whatever order they
    settle, the compiling flag is on only while some call has not settled
    (so it is off once all have), and the svg shown is empty or the
    compiler's output for one of the non-empty sources passed in. *)
Theorem overlapping_compiles (actions : list TypstSchedule.action) :
  let m := run actions TypstSchedule.start in
  (TypstSchedule.pending m = [] →
   UseTypst.compiling (TypstSchedule.hook m) = false)
  ∧ (UseTypst.svg (TypstSchedule.hook m) = ""
     ∨ ∃ s, s ∈ TypstSchedule.called actions ∧ s ≠ ""
            ∧ typst_svg s = UseTypst.Fulfilled (UseTypst.svg (TypstSchedule.hook m))).
Proof.
  destruct (run_sound actions) as (_ & Hbadge & Hsvg).
  split; [|done]. intros Hnone.
  destruct (UseTypst.compiling _) eqn:Hc; [|done].
  by destruct (Hbadge eq_refl).
Qed.

(** X11: when typst.ts fails to load, no schedule of calls ever reaches the
    compiler or renders anything: the svg stays empty, and the error is
    empty or the loader's failure message. *)
Theorem loader_failure_renders_nothing (e : UseTypst.thrown)
    (actions : list TypstSchedule.action) :
  getTypst = UseTypst.Rejected e →
  let st := TypstSchedule.hook (run actions TypstSchedule.start) in
  UseTypst.svg st = ""
  ∧ UseTypst.svg_calls st = []
  ∧ (UseTypst.error st = "" ∨ UseTypst.error st = UseTypst.failure_message e).
Proof.
  intros Hload. unfold TypstSchedule.run.
  induction actions as [|a actions IH] using rev_ind.
  { split; [done|]. split; [done|by left]. }
  rewrite foldl_snoc.
  set (m := foldl step TypstSchedule.start actions) in *.
  simpl in IH. destruct IH as (Hsvg & Hcalls & Herr).
  destruct a as [source|i]; simpl.
  - unfold UseTypst.compile_begin. destruct (_ || _); simpl; [done|].
    split; [done|]. split; [done|by left].
  - destruct (TypstSchedule.pending m !! i); simpl; [|done].
    unfold UseTypst.compile_settle. rewrite Hload. simpl.
    split; [done|]. split; [done|by right].
Qed.

(** One call run to completion is a call followed by its settling. *)
Lemma call_then_settle (source : string) (st : UseTypst.State) :
  TypstSchedule.hook
    (run [TypstSchedule.Call source; TypstSchedule.Settle 0]
       {| TypstSchedule.hook := st; TypstSchedule.pending := [] |})
  = compile source st.
Proof.
  unfold UseTypst.compile. simpl.
  by destruct (UseTypst.compile_begin source st).
Qed.

End TypstRuns.

(** ** The report panel *)

(** X12: after a recompilation that throws with a non-empty message, the
    viewer (stage done or unset) shows the error with the raw source, and
    not the svg that the hook still holds; when the thrown [Error] has an
    empty message no error is shown at all: the earlier svg stays up, or
    the raw source when there is none. *)
Theorem failed_recompile_shows_fallback (getTypst : UseTypst.settled unit)
    (typst_svg : string → UseTypst.settled string)
    (source : string) (st : UseTypst.State) (e : UseTypst.thrown) :
  source ≠ "" → source ≠ UseTypst.lastSource st →
  UseTypst.compilation_throws getTypst typst_svg source e →
  ∀ stage, stage = "" ∨ stage = "done" →
  ReportViewer.render source stage (UseTypst.compile getTypst typst_svg source st)
  = ReportViewer.Viewer false
      (if String.eqb (UseTypst.failure_message e) ""
       then if String.eqb (UseTypst.svg st) ""
            then ReportViewer.Source source
            else ReportViewer.Svg (UseTypst.svg st)
       else ReportViewer.Fallback (UseTypst.failure_message e) source).
Proof.
  intros Hne Hnl Hthrow stage Hstage.
  assert (Hst : UseTypst.error (UseTypst.compile getTypst typst_svg source st)
                = UseTypst.failure_message e
              ∧ UseTypst.svg (UseTypst.compile getTypst typst_svg source st)
                = UseTypst.svg st
              ∧ UseTypst.compiling (UseTypst.compile getTypst typst_svg source st)
                = false).
  { unfold UseTypst.compile, UseTypst.compile_begin.
    destruct (String.eqb_spec source "") as [?|_]; [done|].
    destruct (String.eqb_spec source (UseTypst.lastSource st)) as [?|_]; [done|].
    simpl. unfold UseTypst.compile_settle.
    destruct Hthrow as [->|[[u ->] ->]]; done. }
  destruct Hst as (Herr & Hsvg & Hc).
  unfold ReportViewer.render. rewrite Herr, Hsvg, Hc.
  destruct (String.eqb_spec source "") as [?|_]; [done|]. simpl.
  destruct Hstage as [-> | ->]; simpl;
    destruct (String.eqb (UseTypst.failure_message e) ""); simpl; try done;
    by destruct (String.eqb (UseTypst.svg st) "").
Qed.

(** X13: the loading paragraph shows exactly one caption: the one of the
    stage when the stage is dispatching, synthesizing or generating, and
    "Working: <stage>..." for every other stage; it is never empty. *)
Theorem loading_message_one_caption (stage : string) :
  ReportViewer.loading_message stage
  = (if String.eqb stage "dispatching" then "Sending query to research backends..."
     else if String.eqb stage "synthesizing" then "Synthesizing findings..."
     else if String.eqb stage "generating" then "Generating report..."
     else "Working: " +:+ stage +:+ "...")
  ∧ ReportViewer.loading_message stage ≠ "".
Proof.
  unfold ReportViewer.loading_message.
  destruct (String.eqb_spec stage "dispatching") as [->|H1]; [by split|].
  destruct (String.eqb_spec stage "synthesizing") as [->|H2]; [by split|].
  destruct (String.eqb_spec stage "generating") as [->|H3]; [by split|].
  rewrite bool_decide_eq_false_2; [by split|].
  intros [?|[?|[?|?%elem_of_nil]%elem_of_cons]%elem_of_cons]%elem_of_cons; done.
Qed.

(** X14: which of its three views the report panel of [App] shows: the
    spinner exactly while a submitted query is researching, the stage is
    set and not done, and there is no error; otherwise the placeholder
    when there is no report source and the viewer when there is one.  The
    sidebar is disabled whenever the spinner is up. *)
Theorem panel_views (st : App.State) (stage typstSource error : string)
    (hook : UseTypst.State) :
  let busy := App.researching st && negb (String.eqb stage "")
              && negb (String.eqb stage "done") && String.eqb error "" in
  App.panel st stage typstSource error hook
  = (if busy then ReportViewer.Loading (ReportViewer.loading_message stage)
     else if String.eqb typstSource "" then ReportViewer.Empty
          else ReportViewer.render typstSource "done" hook)
  ∧ (busy = true → App.sidebar_disabled st stage error = true)
  ∧ (typstSource ≠ "" →
     ReportViewer.is_loading (ReportViewer.render typstSource "done" hook) = false).
Proof.
  unfold App.panel, App.viewer_stage, App.sidebar_disabled, App.isActive,
    ReportViewer.render.
  destruct (App.researching st); simpl;
    destruct (String.eqb_spec stage "done") as [->|Hd]; simpl;
    destruct (String.eqb_spec error "") as [->|He]; simpl;
    destruct (String.eqb_spec typstSource "") as [->|Ht]; simpl;
    try destruct (String.eqb_spec stage "") as [->|Hs]; simpl;
    try (destruct (String.eqb_spec stage "done"); [done|]); simpl;
    repeat split; try done.
Qed.

(** X15: a submit that fails (the fetch rejects, the response is not ok,
    or its body does not parse) leaves the report id as it was and the
    interface free: the sidebar is enabled and no spinner is shown,
    whatever stage and error the socket holds.  A submit that succeeds
    sets the report id to the response's and keeps researching on. *)
Theorem submit_outcomes (r : App.fetched) (st : App.State) :
  match r with
  | App.Responded true _ (Some data) =>
      App.handleSubmit r st
      = {| App.reportId := Some (App.report_id data); App.researching := true |}
  | _ =>
      App.handleSubmit r st
      = {| App.reportId := App.reportId st; App.researching := false |}
      ∧ ∀ stage typstSource error hook,
          App.sidebar_disabled (App.handleSubmit r st) stage error = false
          ∧ ReportViewer.is_loading
              (App.panel (App.handleSubmit r st) stage typstSource error hook)
            = false
  end.
Proof.
  assert (Hfree : ∀ st' stage typstSource error hook,
    App.researching st' = false →
    App.sidebar_disabled st' stage error = false
    ∧ ReportViewer.is_loading (App.panel st' stage typstSource error hook) = false).
  { intros st' stage typstSource error hook Hr.
    unfold App.sidebar_disabled, App.panel, App.viewer_stage, App.isActive.
    rewrite Hr. simpl. split; [done|]. unfold ReportViewer.render.
    by destruct (String.eqb_spec typstSource ""). }
  destruct r as [|[] status [data|]]; simpl; try done;
    (split; [done|]); intros; by apply Hfree.
Qed.

(** ** The chat form *)

(** X16: the submit button is disabled exactly when [handleSubmit] would
    do nothing.  When it is, neither a click nor the Enter key changes the
    state or calls [onSubmit]; when it is not, a submit appends one user
    message holding the trimmed input, empties the input and calls
    [onSubmit] with the trimmed, non-empty query.  Shift+Enter and other
    keys never submit. *)
Theorem submit_guard (trim : string → string) (now : Z) (disabled : bool)
    (st : ChatForm.State) :
  (if ChatForm.button_disabled trim disabled st
   then ChatForm.handleSubmit trim now disabled st = (st, None)
        ∧ ∀ key shift,
            ChatForm.onKeyDown trim key shift now disabled st = (st, None)
   else trim (ChatForm.input st) ≠ ""
        ∧ ChatForm.handleSubmit trim now disabled st
          = ({| ChatForm.input := "";
                ChatForm.messages :=
                  ChatForm.messages st
                  ++ [{| ChatForm.msg_role := ChatForm.user;
                         ChatForm.content := trim (ChatForm.input st);
                         ChatForm.timestamp := now |}];
                ChatForm.lastStageRef := ChatForm.lastStageRef st |},
             Some (trim (ChatForm.input st)))
        ∧ ChatForm.onKeyDown trim "Enter" false now disabled st
          = ChatForm.handleSubmit trim now disabled st)
  ∧ (∀ key shift,
       key ≠ "Enter" ∨ shift = true →
       ChatForm.onKeyDown trim key shift now disabled st = (st, None)).
Proof.
  unfold ChatForm.button_disabled, ChatForm.onKeyDown, ChatForm.handleSubmit.
  split.
  - destruct disabled; simpl.
    + rewrite orb_true_r. split; [done|]. intros key shift.
      by destruct (String.eqb key "Enter" && negb shift).
    + destruct (String.eqb_spec (trim (ChatForm.input st)) "") as [Hq|Hq]; simpl.
      * split; [done|]. intros key shift.
        by destruct (String.eqb key "Enter" && negb shift).
      * done.
  - intros key shift [Hk| ->].
    + by destruct (String.eqb_spec key "Enter").
    + by rewrite andb_false_r.
Qed.

Lemma stage_effect_log (now : Z) (stage : string) (st : ChatForm.State) :
  ChatForm.input (ChatForm.stage_effect now stage st) = ChatForm.input st
  ∧ ∃ added,
      ChatForm.messages (ChatForm.stage_effect now stage st)
      = ChatForm.messages st ++ added
      ∧ length added ≤ 1
      ∧ Forall (λ m, ChatForm.msg_role m = ChatForm.system
                     ∧ ChatForm.content m ∈ ChatForm.announcements
                     ∧ ChatForm.timestamp m = now) added
      ∧ (added ≠ [] → stage ∈ ["synthesizing"; "generating"; "done"]
                      ∧ stage ≠ ChatForm.lastStageRef st).
Proof.
  unfold ChatForm.stage_effect.
  assert (Hnone : ∀ st' : ChatForm.State,
    ChatForm.messages st' = ChatForm.messages st →
    ∃ added, ChatForm.messages st' = ChatForm.messages st ++ added
      ∧ length added ≤ 1
      ∧ Forall (λ m, ChatForm.msg_role m = ChatForm.system
                     ∧ ChatForm.content m ∈ ChatForm.announcements
                     ∧ ChatForm.timestamp m = now) added
      ∧ (added ≠ [] → stage ∈ ["synthesizing"; "generating"; "done"]
                      ∧ stage ≠ ChatForm.lastStageRef st)).
  { intros st' ->. exists []. rewrite app_nil_r.
    split; [done|]. split; [simpl; lia|]. split; [constructor|].
    intros H. by destruct H. }
  destruct (String.eqb_spec stage "") as [?|Hne]; simpl; [by split; auto|].
  destruct (String.eqb_spec stage (ChatForm.lastStageRef st)) as [?|Hnl];
    simpl; [by split; auto|].
  destruct (String.eqb_spec stage "synthesizing") as [->|H1]; simpl.
  { split; [done|]. eexists [_]. split; [done|]. split; [done|].
    split; [|intros _; split; [set_solver|done]].
    constructor; [|done]. split; [done|]. split; [|done].
    unfold ChatForm.announcements. set_solver. }
  destruct (String.eqb_spec stage "generating") as [->|H2]; simpl.
  { split; [done|]. eexists [_]. split; [done|]. split; [done|].
    split; [|intros _; split; [set_solver|done]].
    constructor; [|done]. split; [done|]. split; [|done].
    unfold ChatForm.announcements. set_solver. }
  destruct (String.eqb_spec stage "done") as [->|H3]; simpl.
  { split; [done|]. eexists [_]. split; [done|]. split; [done|].
    split; [|intros _; split; [set_solver|done]].
    constructor; [|done]. split; [done|]. split; [|done].
    unfold ChatForm.announcements. set_solver. }
  split; [done|]. by apply Hnone.
Qed.

(** X17: run over any sequence of stages, the stage effect only appends
    to the chat log: it keeps the input and every earlier message, and adds
    at most one message per stage, each a system message with one of the
    three announcements. *)
Theorem stage_effects_append_announcements (stages : list (Z * string))
    (st : ChatForm.State) :
  ChatForm.input (ChatForm.stage_effects stages st) = ChatForm.input st
  ∧ ∃ added,
      ChatForm.messages (ChatForm.stage_effects stages st)
      = ChatForm.messages st ++ added
      ∧ length added ≤ length stages
      ∧ Forall (λ m, ChatForm.msg_role m = ChatForm.system
                     ∧ ChatForm.content m ∈ ChatForm.announcements) added.
Proof.
  unfold ChatForm.stage_effects.
  induction stages as [|[now stage] stages IH] using rev_ind.
  { split; [done|]. exists []. rewrite app_nil_r.
    split; [done|]. split; [simpl; lia|constructor]. }
  rewrite foldl_snoc. simpl.
  destruct IH as (Hin & added & Hmsgs & Hlen & Hall).
  destruct (stage_effect_log now stage
              (foldl (λ st p, ChatForm.stage_effect p.1 p.2 st) st stages))
    as (Hin' & added' & Hmsgs' & Hlen' & Hall' & _).
  split; [congruence|].
  exists (added ++ added'). split; [|split].
  - rewrite Hmsgs', Hmsgs. by rewrite <- (assoc_L (++)).
  - rewrite !length_app. simpl. lia.
  - apply Forall_app. split; [done|].
    eapply Forall_impl; [exact Hall'|]. by intros m (? & ? & _).
Qed.

(** X18: a stage that comes again right after itself is announced once:
    the effect run twice for the same stage does what one run does; and a
    message is added only for synthesizing, generating and done, and only
    when the stage differs from the one remembered. *)
Theorem stage_announced_once (now now' : Z) (stage : string) (st : ChatForm.State) :
  ChatForm.stage_effect now' stage (ChatForm.stage_effect now stage st)
  = ChatForm.stage_effect now stage st
  ∧ (ChatForm.messages (ChatForm.stage_effect now stage st) ≠ ChatForm.messages st →
     stage ∈ ["synthesizing"; "generating"; "done"]
     ∧ stage ≠ ChatForm.lastStageRef st).
Proof.
  split.
  - destruct (String.eqb_spec stage "") as [->|Hne]; [done|].
    assert (Hlast : ChatForm.lastStageRef (ChatForm.stage_effect now stage st)
                    = stage).
    { unfold ChatForm.stage_effect.
      destruct (String.eqb_spec stage "") as [?|_]; [done|].
      destruct (String.eqb_spec stage (ChatForm.lastStageRef st)) as [?|_];
        simpl; [done|].
      destruct (String.eqb stage "synthesizing"); [done|].
      destruct (String.eqb stage "generating"); [done|].
      by destruct (String.eqb stage "done"). }
    generalize dependent (ChatForm.stage_effect now stage st).
    intros st' Hl. unfold ChatForm.stage_effect. rewrite Hl.
    by rewrite String.eqb_refl, orb_true_r.
  - intros Hchanged.
    destruct (stage_effect_log now stage st) as (_ & added & Hm & _ & _ & Hwhy).
    apply Hwhy. intros ->. rewrite app_nil_r in Hm. done.
Qed.

(** ** More on the conflict box *)

Lemma position_item_None (pos : gmap string string) :
  Typst.position_item pos = None
  ↔ pos !! "source" = None ∨ pos !! "claim" = None.
Proof.
  destruct (pos !! "source") as [src|] eqn:Hs.
  - destruct (pos !! "claim") as [cl|] eqn:Hc.
    + rewrite (position_item_Some pos src cl Hs Hc). split; [done|].
      by intros [?|?].
    + split; [by right|]. intros _.
      unfold Typst.position_item, Typst.field. by rewrite Hs, Hc.
  - split; [by left|]. intros _.
    unfold Typst.position_item, Typst.field. by rewrite Hs.
Qed.

(** X19: the conflict box fails (Typst stops with an error) exactly when
    some position has no source key or no claim key; a missing citation,
    the topic and the resolution never make it fail. *)
Theorem conflict_box_fails_iff (topic : string)
    (positions : list (gmap string string)) (resolution : option string) :
  Typst.conflict_box topic positions resolution = None
  ↔ Exists (λ pos, pos !! "source" = None ∨ pos !! "claim" = None) positions.
Proof.
  unfold Typst.conflict_box.
  destruct (mapM Typst.position_item positions) as [items|] eqn:Hm; simpl.
  - split; [done|]. intros Hex. exfalso.
    assert (Hnone : mapM Typst.position_item positions = None); [|congruence].
    apply mapM_None. eapply Exists_impl; [exact Hex|].
    intros pos. apply position_item_None.
  - split; [|done]. intros _. apply mapM_None in Hm.
    eapply Exists_impl; [exact Hm|]. intros pos. apply position_item_None.
Qed.

(** X20: the box reads three keys of a position and no other: positions
    that agree on source, claim and citation give the same box, whatever
    else they hold. *)
Theorem conflict_box_reads_three_keys (topic : string)
    (ps qs : list (gmap string string)) (resolution : option string) :
  Forall2 (λ p q, p !! "source" = q !! "source"
                  ∧ p !! "claim" = q !! "claim"
                  ∧ p !! "citation" = q !! "citation") ps qs →
  Typst.conflict_box topic ps resolution = Typst.conflict_box topic qs resolution.
Proof.
  intros Hagree. unfold Typst.conflict_box.
  assert (Hm : mapM Typst.position_item ps = mapM Typst.position_item qs);
    [|by rewrite Hm].
  induction Hagree as [|p q ps qs (Hs & Hc & Hcit) _ IH]; [done|].
  simpl. rewrite IH.
  assert (Hitem : Typst.position_item p = Typst.position_item q);
    [|by rewrite Hitem].
  unfold Typst.position_item, Typst.field, Typst.keys_contains.
  by rewrite Hs, Hc, Hcit.
Qed.

Lemma conflict_box_Some_items (topic : string)
    (positions : list (gmap string string)) (resolution : option string)
    (items : list Typst.content) :
  Typst.conflict_box topic positions resolution
  = Some (Typst.Block Typst.box_args
            ([Typst.Styled Typst.title_args
                [Typst.Text "Disputed: "; Typst.Text topic];
              Typst.V "0.5em"]
             ++ items ++ Typst.resolution_line resolution))
  ↔ mapM Typst.position_item positions = Some items.
Proof.
  unfold Typst.conflict_box.
  destruct (mapM Typst.position_item positions) as [l|]; simpl; [|done].
  split.
  - intros [= H]. by apply app_inv_tail in H as ->.
  - by intros [= ->].
Qed.

(** X21: members can be rendered in parts: when two lists of positions give
    boxes with items [items1] and [items2], the two lists one after the
    other give the box with [items1] followed by [items2], under the same
    title and resolution line. *)
Theorem conflict_box_app (topic : string) (ps1 ps2 : list (gmap string string))
    (resolution : option string) (items1 items2 : list Typst.content) :
  Typst.conflict_box topic ps1 resolution
  = Some (Typst.Block Typst.box_args
            ([Typst.Styled Typst.title_args
                [Typst.Text "Disputed: "; Typst.Text topic];
              Typst.V "0.5em"]
             ++ items1 ++ Typst.resolution_line resolution)) →
  Typst.conflict_box topic ps2 resolution
  = Some (Typst.Block Typst.box_args
            ([Typst.Styled Typst.title_args
                [Typst.Text "Disputed: "; Typst.Text topic];
              Typst.V "0.5em"]
             ++ items2 ++ Typst.resolution_line resolution)) →
  Typst.conflict_box topic (ps1 ++ ps2) resolution
  = Some (Typst.Block Typst.box_args
            ([Typst.Styled Typst.title_args
                [Typst.Text "Disputed: "; Typst.Text topic];
              Typst.V "0.5em"]
             ++ (items1 ++ items2) ++ Typst.resolution_line resolution)).
Proof.
  rewrite !conflict_box_Some_items. intros H1 H2.
  apply mapM_Some. apply Forall2_app; by apply mapM_Some.
Qed.

(** ** Instances of the further properties *)

Lemma socket_address_witness :
  SocketEvents.connect_to "https:" "quarry.test" (Some "r-17")
    = Some "wss://quarry.test/ws/research/r-17"
  ∧ ((∃ rest, "wss://quarry.test/ws/research/r-17" = "wss:" +:+ rest)
     ↔ "https:" = "https:").
Proof.
  assert (H : SocketEvents.connect_to "https:" "quarry.test" (Some "r-17")
              = Some "wss://quarry.test/ws/research/r-17") by reflexivity.
  split; [exact H|].
  exact (proj2 (proj2 (socket_address "https:" "quarry.test")) _ _ H).
Defined.

Lemma onmessage_ignored_iff_witness :
  UseWebSocket.onmessage (Types.to_json (Types.Ack "pong")) UseWebSocket.initial
  = UseWebSocket.initial.
Proof.
  apply (proj2 (onmessage_ignored_iff (Types.to_json (Types.Ack "pong")))).
  intros t [= <-]. repeat split; discriminate.
Defined.

Lemma successful_compile_clears_error_witness :
  let compile := UseTypst.compile (UseTypst.Fulfilled ()) UseTypst.sample_svg in
  let st := compile "#bad(" UseTypst.initial in
  UseTypst.error st = "unclosed delimiter"
  ∧ compile "= Report" st
    = {| UseTypst.svg := "<svg>= Report</svg>"; UseTypst.compiling := false;
         UseTypst.error := ""; UseTypst.lastSource := "= Report";
         UseTypst.svg_calls := ["#bad("; "= Report"] |}.
Proof.
  split; [reflexivity|].
  apply (successful_compile_clears_error (UseTypst.Fulfilled ()) UseTypst.sample_svg
           "= Report" "<svg>= Report</svg>").
  - vm_compute. discriminate.
  - vm_compute. discriminate.
  - by exists ().
  - reflexivity.
Defined.

Lemma sequential_compiler_calls_witness :
  let calls := UseTypst.svg_calls
                 (UseTypst.compile_all (UseTypst.Fulfilled ()) UseTypst.sample_svg
                    ["= A"; "= A"; ""; "= B"] UseTypst.initial) in
  calls = ["= A"; "= B"] ∧ "= A" ≠ "= B".
Proof.
  split; [reflexivity|].
  apply (proj2 (sequential_compiler_calls (UseTypst.Fulfilled ()) UseTypst.sample_svg
                  ["= A"; "= A"; ""; "= B"]) 0 "= A" "= B");
    reflexivity.
Defined.

Lemma overlapping_compiles_witness :
  let m := TypstSchedule.run (UseTypst.Fulfilled ()) UseTypst.sample_svg
             [TypstSchedule.Call "= A"; TypstSchedule.Call "= B";
              TypstSchedule.Settle 1; TypstSchedule.Settle 0]
             TypstSchedule.start in
  TypstSchedule.pending m = []
  ∧ UseTypst.svg (TypstSchedule.hook m) = "<svg>= A</svg>"
  ∧ UseTypst.lastSource (TypstSchedule.hook m) = "= B"
  ∧ UseTypst.compiling (TypstSchedule.hook m) = false.
Proof.
  intros m.
  assert (Hp : TypstSchedule.pending m = []) by reflexivity.
  split; [exact Hp|]. split; [reflexivity|]. split; [reflexivity|].
  exact (proj1 (overlapping_compiles (UseTypst.Fulfilled ()) UseTypst.sample_svg
                  [TypstSchedule.Call "= A"; TypstSchedule.Call "= B";
                   TypstSchedule.Settle 1; TypstSchedule.Settle 0]) Hp).
Defined.

Lemma loader_failure_renders_nothing_witness :
  let st := TypstSchedule.hook
              (TypstSchedule.run (UseTypst.Rejected UseTypst.OtherValue)
                 UseTypst.sample_svg
                 [TypstSchedule.Call "= A"; TypstSchedule.Settle 0]
                 TypstSchedule.start) in
  UseTypst.svg st = "" ∧ UseTypst.svg_calls st = []
  ∧ (UseTypst.error st = ""
     ∨ UseTypst.error st = UseTypst.failure_message UseTypst.OtherValue).
Proof.
  apply (loader_failure_renders_nothing (UseTypst.Rejected UseTypst.OtherValue)
           UseTypst.sample_svg UseTypst.OtherValue
           [TypstSchedule.Call "= A"; TypstSchedule.Settle 0]).
  reflexivity.
Defined.

Lemma failed_recompile_shows_fallback_witness :
  let compile := UseTypst.compile (UseTypst.Fulfilled ()) UseTypst.sample_svg in
  let st := compile "= Report" UseTypst.initial in
  UseTypst.svg (compile "#bad(" st) = "<svg>= Report</svg>"
  ∧ ReportViewer.render "#bad(" "done" (compile "#bad(" st)
    = ReportViewer.Viewer false (ReportViewer.Fallback "unclosed delimiter" "#bad(").
Proof.
  split; [reflexivity|].
  apply (failed_recompile_shows_fallback (UseTypst.Fulfilled ()) UseTypst.sample_svg
           "#bad(" _ (UseTypst.ErrorObject "unclosed delimiter")).
  - vm_compute. discriminate.
  - vm_compute. discriminate.
  - right. split; [by exists ()|reflexivity].
  - by right.
Defined.

Lemma panel_views_witness :
  let st := {| App.reportId := Some "r-17"; App.researching := true |} in
  App.researching st && negb (String.eqb "synthesizing" "")
    && negb (String.eqb "synthesizing" "done") && String.eqb "" "" = true
  ∧ App.sidebar_disabled st "synthesizing" "" = true.
Proof.
  intros st.
  assert (H : App.researching st && negb (String.eqb "synthesizing" "")
              && negb (String.eqb "synthesizing" "done") && String.eqb "" ""
              = true) by reflexivity.
  split; [exact H|].
  exact (proj1 (proj2 (panel_views st "synthesizing" "" "" UseTypst.initial)) H).
Defined.

Lemma submit_guard_witness :
  ChatForm.onKeyDown (λ s, s) "Enter" true 0%Z false
    (ChatForm.setInput "acme revenue" ChatForm.initial)
  = (ChatForm.setInput "acme revenue" ChatForm.initial, None).
Proof.
  apply (proj2 (submit_guard (λ s, s) 0%Z false
                  (ChatForm.setInput "acme revenue" ChatForm.initial))).
  by right.
Defined.

Lemma stage_announced_once_witness :
  ChatForm.messages (ChatForm.stage_effect 5%Z "done" ChatForm.initial)
    ≠ ChatForm.messages ChatForm.initial
  ∧ "done" ≠ ChatForm.lastStageRef ChatForm.initial.
Proof.
  assert (H : ChatForm.messages (ChatForm.stage_effect 5%Z "done" ChatForm.initial)
              ≠ ChatForm.messages ChatForm.initial) by (vm_compute; discriminate).
  split; [exact H|].
  exact (proj2 (proj2 (stage_announced_once 5%Z 6%Z "done" ChatForm.initial) H)).
Defined.

Lemma conflict_box_fails_iff_witness :
  Typst.conflict_box "Revenue figures" [Typst.gemini_position; ∅] None = None.
Proof.
  apply (proj2 (conflict_box_fails_iff "Revenue figures"
                  [Typst.gemini_position; ∅] None)).
  apply Exists_cons_tl, Exists_cons_hd. by left.
Defined.

Lemma conflict_box_reads_three_keys_witness :
  Typst.conflict_box "Revenue figures"
    [<["confidence" := "0.9"]> Typst.grok_position] None
  = Typst.conflict_box "Revenue figures" [Typst.grok_position] None.
Proof.
  apply conflict_box_reads_three_keys.
  repeat constructor; vm_compute; reflexivity.
Defined.

Lemma conflict_box_app_witness :
  ∃ items,
    Typst.conflict_box "Revenue figures"
      ([Typst.gemini_position] ++ [Typst.grok_position]) None
    = Some (Typst.Block Typst.box_args
              ([Typst.Styled Typst.title_args
                  [Typst.Text "Disputed: "; Typst.Text "Revenue figures"];
                Typst.V "0.5em"]
               ++ items ++ Typst.resolution_line None))
    ∧ length items = 2.
Proof.
  eexists. split.
  - apply (conflict_box_app "Revenue figures" [Typst.gemini_position]
             [Typst.grok_position] None
             [Typst.member_item "Gemini" "$2.1B" (Some "Reuters, Jan 2026")]
             [Typst.member_item "Grok" "$1.8B" None]);
      vm_compute; reflexivity.
  - reflexivity.
Defined.
